(** * go-base32: the Rspamd-compatible base32 codec, embedded and verified

    A shallow embedding of [base32.go].  The Go code writes symbols into a
    caller-supplied slice through a cursor [o]; the embedding keeps that
    shape: every routine that writes runs in a small state-and-failure
    monad over the pair (cursor, slice), and an out-of-range write is the
    run-time panic of Go, rendered as [None].

    - [byte] is the 256-constructor type of the standard library;
      [byte.unsigned] is the conversion [int32(b)] / [uint32(b)] and
      [byte.of_Z] the conversion [byte(x)].
    - [int32] and [uint32] values are integers of [Z]; the operations that
      can leave the range (left shifts, the decrement of a shifted one) are
      wrapped explicitly.
    - Go [int] values (lengths, offsets) are integers of [Z], without
      wrap-around: a slice is far too short for [EncodedLen] of its length
      to overflow 64 bits.  Slice indices and loop counters, which are
      never negative, are [nat].
    - the fixed-size arrays [[32]byte] and [[256]byte] are lists, of that
      length in every alphabet the code builds ([constructed_lengths]);
      they are read with a 5-bit index and with a byte respectively, so a
      read is always in range.
    - the errors of [NewAlphabet] are kept as a tag and the offending
      byte; the text [fmt.Errorf] formats is not modelled.

    The file has three parts: the embedding of the code (module
    [Base32]); the functional models and predicates the code is compared
    with; the proofs, ending with the properties of the specification. *)

From Stdlib Require Import ZArith List Lia Bool ZifyNat Btauto.
From Stdlib Require Strings.String.
From Stdlib Require Import Strings.Byte.
From coqutil Require Import Byte Z.bitblast Datatypes.List.
Import ListNotations.
Import String.StringSyntax.
Local Open Scope string_scope.
Local Open Scope list_scope.
Local Open Scope Z_scope.
(* coqutil switches the default goal selector to "!". *)
Set Default Goal Selector "1".

Ltac Zify.zify_post_hook ::= Z.to_euclidean_division_equations.

(** ** Machine integers *)

(** Two's complement wrap-around of a 32-bit signed value. *)
Definition wrap_int32 (z : Z) : Z := (z + 2 ^ 31) mod 2 ^ 32 - 2 ^ 31.

(** Wrap-around of a 32-bit unsigned value. *)
Definition wrap_uint32 (z : Z) : Z := z mod 2 ^ 32.

(** [x << k] on [int32]. *)
Definition shl_int32 (x k : Z) : Z := wrap_int32 (Z.shiftl x k).

(** [x << k] on [uint32]. *)
Definition shl_uint32 (x k : Z) : Z := wrap_uint32 (Z.shiftl x k).

(** ** Slices and arrays *)

(** [len(s)] *)
Definition len (s : list byte) : Z := Z.of_nat (length s).

(** [make([]byte, n)] *)
Definition make (n : Z) : list byte := repeat x00 (Z.to_nat n).

(** [t[i]] for an array [t]. *)
Definition index (t : list byte) (i : Z) : byte := nth (Z.to_nat i) t x00.

(** [s[:n]]; Go panics when [n] exceeds the capacity. *)
Definition slice_to (s : list byte) (n : nat) : option (list byte) :=
  if (n <=? length s)%nat then Some (firstn n s) else None.

(** ** The output cursor

    A computation that writes through the cursor [o] into a slice, and
    panics ([None]) when [o] is out of range. *)

Definition Out (A : Type) : Type :=
  nat * list byte -> option (A * (nat * list byte)).

Definition ret {A : Type} (a : A) : Out A := fun s => Some (a, s).

Definition bind {A B : Type} (m : Out A) (k : A -> Out B) : Out B :=
  fun s => match m s with
           | Some (a, s') => k a s'
           | None => None
           end.

(** [output[o] = v; o++] *)
Definition put (v : byte) : Out unit :=
  fun s => let (o, output) := s in
           if (o <? length output)%nat
           then Some (tt, (S o, List.upd output o v))
           else None.

Declare Scope out_scope.
Delimit Scope out_scope with out.
Notation "x <- m ;; k" := (bind m (fun x => k))
  (at level 61, m at next level, right associativity) : out_scope.
Notation "m ;; k" := (bind m (fun _ => k))
  (at level 61, right associativity) : out_scope.
Local Open Scope out_scope.

Module Base32.

Definition AlphabetSize : Z := 32.

(** [EncodeOrder]: the bit ordering during encoding. *)
Inductive EncodeOrder := OrderNormal | OrderInversed.

(** [Alphabet]: the 32 characters used for encoding, the reverse table and
    the order. *)
Record Alphabet := mkAlphabet {
  encodeSymbols : list byte;
  decodeBytes : list byte;
  encodeOrder : EncodeOrder
}.

(** The three errors [NewAlphabet] builds with [fmt.Errorf]; the byte is the
    one formatted into the message. *)
Inductive AlphabetError :=
| InvalidLength
| UnprintableByte (b : byte)
| DuplicatedByte (b : byte).

(** [duplicates[b] = true] on a [map[byte]bool]; reading an absent key of a
    Go map gives [false]. *)
Definition mark (duplicates : byte -> bool) (b : byte) : byte -> bool :=
  fun x => if Byte.eqb x b then true else duplicates x.

(** The loop [for i, b := range []byte(alphabet)] of [NewAlphabet]. *)
Fixpoint NewAlphabet_loop (i : nat) (alphabet : list byte)
    (symbols decodeBytes : list byte) (duplicates : byte -> bool)
    : AlphabetError + (list byte * list byte) :=
  match alphabet with
  | [] => inr (symbols, decodeBytes)
  | b :: rest =>
      if (byte.unsigned b <? 32) || (byte.unsigned b >? 126)
      then inl (UnprintableByte b)
      else if duplicates b
      then inl (DuplicatedByte b)
      else NewAlphabet_loop (S i) rest
             (List.upd symbols i b)
             (List.upd decodeBytes (Z.to_nat (byte.unsigned b))
                       (byte.of_Z (Z.of_nat i)))
             (mark duplicates b)
  end.

(** [for i := range decodeBytes { decodeBytes[i] = 0xff }] *)
Definition invalidate (decodeBytes : list byte) : list byte :=
  map (fun _ => xff) decodeBytes.

Definition NewAlphabet (alphabet : list byte) (order : EncodeOrder)
    : AlphabetError + Alphabet :=
  if negb (len alphabet =? AlphabetSize) then inl InvalidLength
  else
    let symbols := repeat x00 (Z.to_nat AlphabetSize) in
    let decodeBytes := invalidate (repeat x00 256) in
    match NewAlphabet_loop 0 alphabet symbols decodeBytes (fun _ => false) with
    | inl e => inl e
    | inr (symbols, decodeBytes) => inr (mkAlphabet symbols decodeBytes order)
    end.

(** The loop of [initDecodeTable]. *)
Fixpoint initDecodeTable_loop (i : nat) (alphabet : list byte)
    (decodeBytes : list byte) : list byte :=
  match alphabet with
  | [] => decodeBytes
  | b :: rest =>
      initDecodeTable_loop (S i) rest
        (List.upd decodeBytes (Z.to_nat (byte.unsigned b))
                  (byte.of_Z (Z.of_nat i)))
  end.

Definition initDecodeTable (alphabet : String.string) : list byte :=
  initDecodeTable_loop 0 (String.list_byte_of_string alphabet)
    (invalidate (repeat x00 256)).

Definition ZBASE32 : Alphabet := {|
  encodeSymbols :=
    ["y"; "b"; "n"; "d"; "r"; "f"; "g"; "8"; "e"; "j"; "k"; "m"; "c"; "p";
     "q"; "x"; "o"; "t"; "1"; "u"; "w"; "i"; "s"; "z"; "a"; "3"; "4"; "5";
     "h"; "7"; "6"; "9"]%byte;
  decodeBytes := initDecodeTable "ybndrfg8ejkmcpqxot1uwisza345h769";
  encodeOrder := OrderInversed
|}.

Definition RFC4648 : Alphabet := {|
  encodeSymbols :=
    ["A"; "B"; "C"; "D"; "E"; "F"; "G"; "H"; "I"; "J"; "K"; "L"; "M"; "N";
     "O"; "P"; "Q"; "R"; "S"; "T"; "U"; "V"; "W"; "X"; "Y"; "Z"; "2"; "3";
     "4"; "5"; "6"; "7"]%byte;
  decodeBytes := initDecodeTable "ABCDEFGHIJKLMNOPQRSTUVWXYZ234567";
  encodeOrder := OrderNormal
|}.

Definition BECH32 : Alphabet := {|
  encodeSymbols :=
    ["q"; "p"; "z"; "r"; "y"; "9"; "x"; "8"; "g"; "f"; "2"; "t"; "v"; "d";
     "w"; "0"; "s"; "3"; "j"; "n"; "5"; "4"; "k"; "h"; "c"; "e"; "6"; "m";
     "u"; "a"; "7"; "l"]%byte;
  decodeBytes := initDecodeTable "qpzry9x8gf2tvdw0s3jn54khce6mua7l";
  encodeOrder := OrderNormal
|}.

(** [DecodeError] *)
Record DecodeError := mkDecodeError {
  Msg : String.string;
  Offset : Z;
  Byte : byte
}.

(** [EncodedLen]; [/] and [%] of Go truncate toward zero. *)
Definition EncodedLen (bytesLen : Z) : Z :=
  let minBytes := Z.quot bytesLen 5 in
  let rem := Z.rem bytesLen 5 in
  minBytes * 8 + rem * 2 + 1.

(** One iteration of the [OrderInversed] loop of [EncodeToSlice]: the
    [switch i % 5].  The result is the new value of [remain]. *)
Definition encode_inversed_case (encodeTable : list byte) (i : nat)
    (c : byte) (remain : Z) : Out Z :=
  match (i mod 5)%nat with
  | 0%nat =>
      let x := byte.unsigned c in
      put (index encodeTable (Z.land x 31)) ;;
      ret (Z.shiftr x 5)
  | 1%nat =>
      let inp := byte.unsigned c in
      let x := Z.lor remain (shl_int32 inp 3) in
      put (index encodeTable (Z.land x 31)) ;;
      put (index encodeTable (Z.land (Z.shiftr x 5) 31)) ;;
      ret (Z.shiftr x 10)
  | 2%nat =>
      let inp := byte.unsigned c in
      let x := Z.lor remain (shl_int32 inp 1) in
      put (index encodeTable (Z.land x 31)) ;;
      ret (Z.shiftr x 5)
  | 3%nat =>
      let inp := byte.unsigned c in
      let x := Z.lor remain (shl_int32 inp 4) in
      put (index encodeTable (Z.land x 31)) ;;
      put (index encodeTable (Z.land (Z.shiftr x 5) 31)) ;;
      ret (Z.land (Z.shiftr x 10) 3)
  | 4%nat =>
      let inp := byte.unsigned c in
      let x := Z.lor remain (shl_int32 inp 2) in
      put (index encodeTable (Z.land x 31)) ;;
      put (index encodeTable (Z.land (Z.shiftr x 5) 31)) ;;
      ret (-1)
  | _ => ret remain
  end.

(** One iteration of the [OrderNormal] loop of [EncodeToSlice]. *)
Definition encode_normal_case (encodeTable : list byte) (i : nat)
    (c : byte) (remain : Z) : Out Z :=
  match (i mod 5)%nat with
  | 0%nat =>
      let inp := byte.unsigned c in
      let x := Z.shiftr inp 3 in
      put (index encodeTable (Z.land x 31)) ;;
      ret (shl_int32 (Z.land inp 7) 2)
  | 1%nat =>
      let inp := byte.unsigned c in
      let x := Z.lor (shl_int32 remain 6) inp in
      put (index encodeTable (Z.land (Z.shiftr x 6) 31)) ;;
      put (index encodeTable (Z.land (Z.shiftr x 1) 31)) ;;
      ret (shl_int32 (Z.land x 1) 4)
  | 2%nat =>
      let inp := byte.unsigned c in
      let x := Z.lor (shl_int32 remain 4) inp in
      put (index encodeTable (Z.land (Z.shiftr x 4) 31)) ;;
      ret (shl_int32 (Z.land x 15) 1)
  | 3%nat =>
      let inp := byte.unsigned c in
      let x := Z.lor (shl_int32 remain 7) inp in
      put (index encodeTable (Z.land (Z.shiftr x 7) 31)) ;;
      put (index encodeTable (Z.land (Z.shiftr x 2) 31)) ;;
      ret (shl_int32 (Z.land x 3) 3)
  | 4%nat =>
      let inp := byte.unsigned c in
      let x := Z.lor (shl_int32 remain 5) inp in
      put (index encodeTable (Z.land (Z.shiftr x 5) 31)) ;;
      put (index encodeTable (Z.land x 31)) ;;
      ret (-1)
  | _ => ret remain
  end.

(** [for i := 0; i < len(input); i++ { switch i % 5 ... }], started at
    index [i] on the rest of the input. *)
Fixpoint encode_loop (body : nat -> byte -> Z -> Out Z) (i : nat)
    (input : list byte) (remain : Z) : Out Z :=
  match input with
  | [] => ret remain
  | c :: rest =>
      remain <- body i c remain ;;
      encode_loop body (S i) rest remain
  end.

(** [EncodeToSlice]: the count of bytes written, with the slice as the
    call leaves it; [None] is a panic. *)
Definition EncodeToSlice (input output : list byte) (alphabet : Alphabet)
    : option (nat * list byte) :=
  let encodeTable := encodeSymbols alphabet in
  let run : Out unit :=
    remain <- match encodeOrder alphabet with
              | OrderInversed =>
                  encode_loop (encode_inversed_case encodeTable) 0 input (-1)
              | OrderNormal =>
                  encode_loop (encode_normal_case encodeTable) 0 input (-1)
              end ;;
    if remain >=? 0
    then put (index encodeTable (Z.land remain 31))
    else ret tt in
  match run (0%nat, output) with
  | Some (_, s) => Some s
  | None => None
  end.

(** [EncodeAlphabet] *)
Definition EncodeAlphabet (input : list byte) (alphabet : Alphabet)
    : option (list byte) :=
  let encodedSize := EncodedLen (len input) in
  let buf := make encodedSize in
  match EncodeToSlice input buf alphabet with
  | Some (encLen, buf) => slice_to buf encLen
  | None => None
  end.

(** [Encode] *)
Definition Encode (input : list byte) : option (list byte) :=
  EncodeAlphabet input ZBASE32.

(** [DecodedLen] *)
Definition DecodedLen (bytesLen : Z) : Z :=
  let fullChunks := Z.quot bytesLen 8 in
  let remainder := Z.rem bytesLen 8 in
  fullChunks * 5 + remainder.

Definition invalid_byte (i : nat) (c : byte) : DecodeError :=
  {| Msg := "invalid byte"; Offset := Z.of_nat i; Byte := c |}.

(** The [OrderInversed] branch of [DecodeAlphabetToSlice]: the loop
    [for i, c := range input] started at index [i], followed by the final
    emit.  The result is the error, if any. *)
Fixpoint decode_inversed (decodeBytes : list byte) (i : nat)
    (input : list byte) (processedBits acc : Z) : Out (option DecodeError) :=
  match input with
  | [] =>
      if processedBits >? 0
      then put (byte.of_Z (Z.land acc 255)) ;; ret None
      else ret None
  | c :: rest =>
      st <- (if processedBits >=? 8
             then put (byte.of_Z (Z.land acc 255)) ;;
                  ret (processedBits - 8, Z.shiftr acc 8)
             else ret (processedBits, acc)) ;;
      let processedBits := fst st in
      let acc := snd st in
      let decoded := index decodeBytes (byte.unsigned c) in
      if Byte.eqb decoded xff
      then ret (Some (invalid_byte i c))
      else
        let acc := Z.lor (shl_uint32 (byte.unsigned decoded) processedBits) acc in
        decode_inversed decodeBytes (S i) rest (processedBits + 5) acc
  end.

(** The [OrderNormal] branch of [DecodeAlphabetToSlice]. *)
Fixpoint decode_normal (decodeBytes : list byte) (i : nat)
    (input : list byte) (processedBits acc : Z) : Out (option DecodeError) :=
  match input with
  | [] => ret None
  | c :: rest =>
      let decoded := index decodeBytes (byte.unsigned c) in
      if Byte.eqb decoded xff
      then ret (Some (invalid_byte i c))
      else
        let acc := Z.lor (shl_uint32 acc 5) (byte.unsigned decoded) in
        let processedBits := processedBits + 5 in
        if processedBits >=? 8
        then
          let processedBits := processedBits - 8 in
          put (byte.of_Z (Z.land (Z.shiftr acc processedBits) 255)) ;;
          decode_normal decodeBytes (S i) rest processedBits
            (Z.land acc (wrap_uint32 (shl_uint32 1 processedBits - 1)))
        else decode_normal decodeBytes (S i) rest processedBits acc
  end.

(** [DecodeAlphabetToSlice]: the pair [(int, error)] that Go returns, with
    the buffer as the call leaves it; [None] is a panic. *)
Definition DecodeAlphabetToSlice (input buffer : list byte)
    (alphabet : Alphabet) : option ((nat * option DecodeError) * list byte) :=
  let run :=
    match encodeOrder alphabet with
    | OrderInversed => decode_inversed (decodeBytes alphabet) 0 input 0 0
    | OrderNormal => decode_normal (decodeBytes alphabet) 0 input 0 0
    end in
  match run (0%nat, buffer) with
  | Some (Some e, (_, buffer)) => Some ((0%nat, Some e), buffer)
  | Some (None, (o, buffer)) => Some ((o, None), buffer)
  | None => None
  end.

(** [DecodeAlphabet]: the pair [([]byte, error)]; the nil slice is []. *)
Definition DecodeAlphabet (input : list byte) (alphabet : Alphabet)
    : option (list byte * option DecodeError) :=
  let buffer := make (DecodedLen (len input)) in
  match DecodeAlphabetToSlice input buffer alphabet with
  | Some ((actualLen, Some err), _) => Some ([], Some err)
  | Some ((actualLen, None), buffer) =>
      match slice_to buffer actualLen with
      | Some out => Some (out, None)
      | None => None
      end
  | None => None
  end.

(** [Decode] *)
Definition Decode (input : list byte) : option (list byte * option DecodeError) :=
  DecodeAlphabet input ZBASE32.

(** [EncodeString], [DecodeString] and the alphabet variants: a Go string
    is its bytes. *)
Definition EncodeString (input : String.string) : option (list byte) :=
  Encode (String.list_byte_of_string input).

Definition DecodeString (input : String.string)
    : option (list byte * option DecodeError) :=
  Decode (String.list_byte_of_string input).

Definition EncodeAlphabetString (input : String.string) (alphabet : Alphabet)
    : option (list byte) :=
  EncodeAlphabet (String.list_byte_of_string input) alphabet.

Definition DecodeAlphabetString (input : String.string) (alphabet : Alphabet)
    : option (list byte * option DecodeError) :=
  DecodeAlphabet (String.list_byte_of_string input) alphabet.

End Base32.

Import Base32.

(** * Specifications

    The predicates and the functional models the proofs below relate the
    code to. *)

(** ** Writing through the cursor *)

(** [writes m l a]: started on a cursor that has [length l] free slots
    ahead, [m] fills them with [l], leaves everything else in place, moves
    the cursor past them and returns [a]; in particular it does not
    panic. *)
Definition writes {A : Type} (m : Out A) (l : list byte) (a : A) : Prop :=
  forall pre fill post,
    length fill = length l ->
    m (length pre, pre ++ fill ++ post)
    = Some (a, (length (pre ++ l), pre ++ l ++ post)).

(** ** The functional model of the encoder *)

(** The value of [remain] once the byte [x] has been consumed as the
    [p]-th byte of a group of five. *)
Definition carry (order : EncodeOrder) (p : nat) (x : Z) : Z :=
  match order, p with
  | OrderInversed, 1%nat => Z.shiftr x 5
  | OrderInversed, 2%nat => Z.shiftr x 7
  | OrderInversed, 3%nat => Z.shiftr x 4
  | OrderInversed, 4%nat => Z.shiftr x 6
  | OrderNormal, 1%nat => Z.shiftl (Z.land x 7) 2
  | OrderNormal, 2%nat => Z.shiftl (Z.land x 1) 4
  | OrderNormal, 3%nat => Z.shiftl (Z.land x 15) 1
  | OrderNormal, 4%nat => Z.shiftl (Z.land x 3) 3
  | _, _ => -1
  end.

(** The 5-bit values emitted for the byte [y] at position [p] of its
    group, [r] being the pending [remain]. *)
Definition emitted (order : EncodeOrder) (p : nat) (r y : Z) : list Z :=
  match order, p with
  | OrderInversed, 0%nat => [Z.land y 31]
  | OrderInversed, 1%nat =>
      let x := Z.lor r (Z.shiftl y 3) in
      [Z.land x 31; Z.land (Z.shiftr x 5) 31]
  | OrderInversed, 2%nat =>
      let x := Z.lor r (Z.shiftl y 1) in
      [Z.land x 31]
  | OrderInversed, 3%nat =>
      let x := Z.lor r (Z.shiftl y 4) in
      [Z.land x 31; Z.land (Z.shiftr x 5) 31]
  | OrderInversed, 4%nat =>
      let x := Z.lor r (Z.shiftl y 2) in
      [Z.land x 31; Z.land (Z.shiftr x 5) 31]
  | OrderNormal, 0%nat => [Z.land (Z.shiftr y 3) 31]
  | OrderNormal, 1%nat =>
      let x := Z.lor (Z.shiftl r 6) y in
      [Z.land (Z.shiftr x 6) 31; Z.land (Z.shiftr x 1) 31]
  | OrderNormal, 2%nat =>
      let x := Z.lor (Z.shiftl r 4) y in
      [Z.land (Z.shiftr x 4) 31]
  | OrderNormal, 3%nat =>
      let x := Z.lor (Z.shiftl r 7) y in
      [Z.land (Z.shiftr x 7) 31; Z.land (Z.shiftr x 2) 31]
  | OrderNormal, 4%nat =>
      let x := Z.lor (Z.shiftl r 5) y in
      [Z.land (Z.shiftr x 5) 31; Z.land x 31]
  | _, _ => []
  end.

(** The values of the whole encoding: [x] is the byte before [input], at
    position [p - 1] of its group; the last value is the pending carry. *)
Fixpoint values (order : EncodeOrder) (p : nat) (x : Z) (input : list byte)
    : list Z :=
  match input with
  | [] => match p with
          | 0%nat => []
          | _ => [Z.land (carry order p x) 31]
          end
  | c :: rest =>
      emitted order p (carry order p x) (byte.unsigned c)
        ++ values order (S p mod 5) (byte.unsigned c) rest
  end.

(** The symbols [EncodeToSlice] writes. *)
Definition encoding (alphabet : Alphabet) (input : list byte) : list byte :=
  map (index (encodeSymbols alphabet)) (values (encodeOrder alphabet) 0 0 input).

(** The [switch] body of either order. *)
Definition encode_case (order : EncodeOrder) :=
  match order with
  | OrderInversed => encode_inversed_case
  | OrderNormal => encode_normal_case
  end.

(** The final emit of [EncodeToSlice]. *)
Definition encode_final (encodeTable : list byte) (remain : Z) : Out unit :=
  if remain >=? 0
  then put (index encodeTable (Z.land remain 31))
  else ret tt.

(** ** The functional model of the decoder *)

(** The decoder state: [processedBits] and [acc]. *)
Definition bits_state : Type := Z * Z.

(** One decoded 5-bit value [v] enters the accumulator: the byte emitted,
    if any, and the next state. *)
Definition feed1 (order : EncodeOrder) (st : bits_state) (v : Z)
    : list byte * bits_state :=
  let (processedBits, acc) := st in
  match order with
  | OrderInversed =>
      if processedBits >=? 8
      then ([byte.of_Z (Z.land acc 255)],
            (processedBits - 8 + 5,
             Z.lor (shl_uint32 v (processedBits - 8)) (Z.shiftr acc 8)))
      else ([], (processedBits + 5, Z.lor (shl_uint32 v processedBits) acc))
  | OrderNormal =>
      let acc := Z.lor (shl_uint32 acc 5) v in
      let processedBits := processedBits + 5 in
      if processedBits >=? 8
      then ([byte.of_Z (Z.land (Z.shiftr acc (processedBits - 8)) 255)],
            (processedBits - 8,
             Z.land acc (wrap_uint32 (shl_uint32 1 (processedBits - 8) - 1))))
      else ([], (processedBits, acc))
  end.

Fixpoint feed (order : EncodeOrder) (st : bits_state) (vs : list Z)
    : list byte * bits_state :=
  match vs with
  | [] => ([], st)
  | v :: rest =>
      let (out, st1) := feed1 order st v in
      let (out', st2) := feed order st1 rest in
      (out ++ out', st2)
  end.

(** The bytes written once the input is exhausted. *)
Definition flush (order : EncodeOrder) (st : bits_state) : list byte :=
  match order with
  | OrderInversed =>
      if fst st >? 0 then [byte.of_Z (Z.land (snd st) 255)] else []
  | OrderNormal => []
  end.

(** The byte written by the iteration that meets an invalid symbol. *)
Definition stall (order : EncodeOrder) (st : bits_state) : list byte :=
  match order with
  | OrderInversed =>
      if fst st >=? 8 then [byte.of_Z (Z.land (snd st) 255)] else []
  | OrderNormal => []
  end.

(** The bytes [DecodeAlphabetToSlice] writes and the error it returns. *)
Fixpoint decoding (order : EncodeOrder) (decodeBytes : list byte) (i : nat)
    (input : list byte) (st : bits_state) : list byte * option DecodeError :=
  match input with
  | [] => (flush order st, None)
  | c :: rest =>
      let decoded := index decodeBytes (byte.unsigned c) in
      if Byte.eqb decoded xff
      then (stall order st, Some (invalid_byte i c))
      else
        let (out, st1) := feed1 order st (byte.unsigned decoded) in
        let (out', e) := decoding order decodeBytes (S i) rest st1 in
        (out ++ out', e)
  end.

(** The loop of either order. *)
Definition decode_from (order : EncodeOrder) :=
  match order with
  | OrderInversed => decode_inversed
  | OrderNormal => decode_normal
  end.

(** The bytes written and the error returned by a call of the decoder. *)
Definition decoded (alphabet : Alphabet) (input : list byte)
    : list byte * option DecodeError :=
  decoding (encodeOrder alphabet) (decodeBytes alphabet) 0 input (0, 0).

(** A symbol the reverse table accepts, and the value it stands for. *)
Definition valid (decodeBytes : list byte) (c : byte) : Prop :=
  index decodeBytes (byte.unsigned c) <> xff.

Definition value (decodeBytes : list byte) (c : byte) : Z :=
  byte.unsigned (index decodeBytes (byte.unsigned c)).

(** The values [processedBits] takes between two symbols. *)
Definition ready (order : EncodeOrder) (processedBits : Z) : Prop :=
  match order with
  | OrderNormal => 0 <= processedBits < 8
  | OrderInversed => processedBits = 0 \/ 5 <= processedBits <= 12
  end.

(** What the final emit of the inverse order adds to the bit count. *)
Definition slack (order : EncodeOrder) : Z :=
  match order with
  | OrderNormal => 0
  | OrderInversed => 3
  end.

(** ** Alphabets *)

(** The printable ASCII range 0x20-0x7E. *)
Definition printable (b : byte) : Prop := 32 <= byte.unsigned b <= 126.

(** A string of printable, pairwise distinct bytes. *)
Definition clean (l : list byte) : Prop := Forall printable l /\ NoDup l.

(** [fault pre b e]: after the bytes [pre], the byte [b] makes the loop of
    [NewAlphabet] stop with the error [e]. *)
Inductive fault (pre : list byte) (b : byte) : AlphabetError -> Prop :=
| fault_unprintable : ~ printable b -> fault pre b (UnprintableByte b)
| fault_duplicated : printable b -> In b pre -> fault pre b (DuplicatedByte b).

(** The reverse table inverts the forward table and marks every other
    byte invalid. *)
Definition inverts (symbols decodeBytes : list byte) : Prop :=
  (forall j, (j < length symbols)%nat ->
     index decodeBytes (byte.unsigned (nth j symbols x00))
     = byte.of_Z (Z.of_nat j))
  /\ (forall x, ~ In x symbols -> index decodeBytes (byte.unsigned x) = xff).

(** The state of the loop of [NewAlphabet] after the bytes [done]. *)
Record scanned (done symbols t : list byte) (duplicates : byte -> bool)
    : Prop := {
  scanned_symbols :
    symbols = done ++ repeat x00 (length symbols - length done);
  scanned_length : length t = 256%nat;
  scanned_inverts : inverts done t;
  scanned_duplicates : forall x, duplicates x = true <-> In x done;
  scanned_NoDup : NoDup done;
  scanned_printable : Forall printable done
}.

Definition all_bytes : list byte :=
  map (fun n => byte.of_Z (Z.of_nat n)) (seq 0 256).

(** A decision procedure for [inverts]. *)
Definition inverts_check (symbols t : list byte) : bool :=
  forallb
    (fun j => Byte.eqb (index t (byte.unsigned (nth j symbols x00)))
                (byte.of_Z (Z.of_nat j)))
    (seq 0 (length symbols))
  && forallb
       (fun x => existsb (Byte.eqb x) symbols
                 || Byte.eqb (index t (byte.unsigned x)) xff)
       all_bytes.

(** The alphabets a program can hold: the results of [NewAlphabet] and the
    three predefined ones. *)
Inductive constructed : Alphabet -> Prop :=
| constructed_NewAlphabet spec order a :
    NewAlphabet spec order = inr a -> constructed a
| constructed_ZBASE32 : constructed ZBASE32
| constructed_RFC4648 : constructed RFC4648
| constructed_BECH32 : constructed BECH32.

(** The reverse table of [alphabet] inverts its forward table; every byte
    that is not a symbol maps to 0xff, which is no 5-bit value. *)
Definition bijective (alphabet : Alphabet) : Prop :=
  (forall i, 0 <= i < 32 ->
     byte.unsigned
       (index (decodeBytes alphabet)
          (byte.unsigned (index (encodeSymbols alphabet) i))) = i)
  /\ (forall x, ~ In x (encodeSymbols alphabet) ->
        index (decodeBytes alphabet) (byte.unsigned x) = xff)
  /\ ~ 0 <= byte.unsigned xff < 32.

(** The alphabet with the symbols of [alphabet] and the normal order. *)
Definition normal_twin (alphabet : Alphabet) : Alphabet :=
  {| encodeSymbols := encodeSymbols alphabet;
     decodeBytes := decodeBytes alphabet;
     encodeOrder := OrderNormal |}.

(** ** Encoder and decoder in step *)

(** The decoder in step with the encoder: [synced order p x st pend] holds
    when the encoder has just consumed the byte [x] at position [p - 1] of
    its group and the decoder, in state [st], has been fed every value
    emitted so far; [pend] are the input bytes the decoder has not written
    yet. *)
Inductive synced : EncodeOrder -> nat -> byte -> bits_state -> list byte -> Prop :=
| synced_start order x : synced order 0 x (0, 0) []
| synced_N1 x :
    synced OrderNormal 1 x (5, Z.shiftr (byte.unsigned x) 3) [x]
| synced_N2 x :
    synced OrderNormal 2 x (7, Z.shiftr (byte.unsigned x) 1) [x]
| synced_N3 x :
    synced OrderNormal 3 x (4, Z.shiftr (byte.unsigned x) 4) [x]
| synced_N4 x :
    synced OrderNormal 4 x (6, Z.shiftr (byte.unsigned x) 2) [x]
| synced_I1 x :
    synced OrderInversed 1 x (5, Z.land (byte.unsigned x) 31) [x]
| synced_I2 x :
    synced OrderInversed 2 x (7, Z.land (byte.unsigned x) 127) [x]
| synced_I3 w x :
    synced OrderInversed 3 x
      (12, Z.lor (byte.unsigned w)
             (Z.shiftl (Z.land (byte.unsigned x) 15) 8)) [w; x]
| synced_I4 x :
    synced OrderInversed 4 x (6, Z.land (byte.unsigned x) 63) [x]
| synced_I0 x :
    synced OrderInversed 0 x (8, byte.unsigned x) [x].

Definition ok_roundtrip (alphabet : Alphabet) : Prop :=
  forall b : list byte,
    exists s, EncodeAlphabet b alphabet = Some s
              /\ DecodeAlphabet s alphabet = Some (b, None).

(** ** Running out of room *)

(** [overruns m n]: started with fewer than [n] free slots ahead of the
    cursor, [m] panics. *)
Definition overruns {A : Type} (m : Out A) (n : nat) : Prop :=
  forall o output,
    (o <= length output < o + n)%nat -> m (o, output) = None.

(** ** Errors further down the input *)

(** The error [e] as reported when [k] more symbols precede the input. *)
Definition later (k : Z) (e : DecodeError) : DecodeError :=
  {| Msg := Msg e; Offset := k + Offset e; Byte := Byte e |}.

(** ** The codec on numbers *)

(** The number a byte sequence stands for, first byte least significant. *)
Definition little_endian (input : list byte) : Z :=
  fold_right (fun b n => byte.unsigned b + 256 * n) 0 input.

(** The [n] low base-32 digits of [N], least significant first. *)
Fixpoint digits32 (n : nat) (N : Z) : list Z :=
  match n with
  | O => []
  | S n => Z.land N 31 :: digits32 n (Z.shiftr N 5)
  end.

(** The number of bits the encoder carries into position [p] of a group
    of five bytes. *)
Definition pending (p : nat) : Z := (8 * Z.of_nat p) mod 5.

(** The number a byte sequence stands for, first byte most significant. *)
Definition big_endian (input : list byte) : Z :=
  fold_left (fun n b => 256 * n + byte.unsigned b) input 0.

(** The number whose base-32 digits, least significant first, are [vs]. *)
Definition number32 (vs : list Z) : Z :=
  fold_right (fun v n => v + 32 * n) 0 vs.

(** The [n] low bytes of [N], least significant first. *)
Fixpoint le_bytes (n : nat) (N : Z) : list byte :=
  match n with
  | O => []
  | S n => byte.of_Z N :: le_bytes n (Z.shiftr N 8)
  end.

(** The number whose base-32 digits, most significant first, are [vs]. *)
Definition number32_be (vs : list Z) : Z :=
  fold_left (fun n v => 32 * n + v) vs 0.

(** * Reasoning about the output cursor *)

Lemma writes_ret {A : Type} (a : A) : writes (ret a) [] a.
Proof.
  intros pre fill post Hlen.
  destruct fill; [|discriminate].
  unfold ret. now rewrite app_nil_r.
Qed.

Lemma upd_middle (pre post : list byte) (f v : byte) :
  List.upd (pre ++ f :: post) (length pre) v = pre ++ v :: post.
Proof.
  induction pre as [|h pre IH]; simpl.
  - rewrite List.upd_0_skipn by (simpl; lia). reflexivity.
  - now rewrite List.upd_cons_S, IH.
Qed.

Lemma writes_put (v : byte) : writes (put v) [v] tt.
Proof.
  intros pre fill post Hlen.
  destruct fill as [|f [|]]; try discriminate.
  unfold put. simpl.
  assert (Hlt : (length pre <? length (pre ++ f :: post))%nat = true).
  { apply Nat.ltb_lt. rewrite length_app. simpl. lia. }
  rewrite Hlt, upd_middle, length_app. simpl.
  now replace (length pre + 1)%nat with (S (length pre)) by lia.
Qed.

Lemma writes_bind {A B : Type} (m : Out A) (k : A -> Out B) l1 l2 a b :
  writes m l1 a -> writes (k a) l2 b -> writes (bind m k) (l1 ++ l2) b.
Proof.
  intros Hm Hk pre fill post Hlen.
  rewrite length_app in Hlen.
  unfold bind.
  rewrite <- (firstn_skipn (length l1) fill), <- app_assoc.
  rewrite Hm by (rewrite length_firstn; lia).
  replace (pre ++ l1 ++ skipn (length l1) fill ++ post)
    with ((pre ++ l1) ++ skipn (length l1) fill ++ post)
    by now rewrite <- app_assoc.
  rewrite Hk by (rewrite length_skipn; lia).
  now rewrite <- !app_assoc.
Qed.

(** Running such a computation from the start of a slice that is long
    enough. *)
Lemma writes_run {A : Type} (m : Out A) l a (output : list byte) :
  writes m l a ->
  (length l <= length output)%nat ->
  m (0%nat, output) = Some (a, (length l, l ++ skipn (length l) output)).
Proof.
  intros Hm Hlen.
  specialize (Hm [] (firstn (length l) output) (skipn (length l) output)).
  simpl in Hm. rewrite firstn_skipn in Hm.
  apply Hm. rewrite length_firstn. lia.
Qed.

Lemma writes_put_then {B : Type} (v : byte) (k : Out B) l b :
  writes k l b -> writes (put v ;; k) (v :: l) b.
Proof.
  intros Hk. change (v :: l) with ([v] ++ l).
  apply writes_bind with (a := tt); [apply writes_put | exact Hk].
Qed.

Lemma writes_ret_eq {A : Type} (a a' : A) : a = a' -> writes (ret a) [] a'.
Proof. intros <-. apply writes_ret. Qed.

Lemma writes_assoc {A B C : Type} (m : Out A) (k : A -> Out B)
    (f : B -> Out C) l c :
  writes (a <- m ;; (b <- k a ;; f b)) l c ->
  writes (b <- (a <- m ;; k a) ;; f b) l c.
Proof.
  intros H pre fill post Hlen. rewrite <- (H pre fill post Hlen).
  unfold bind. now destruct (m _) as [[a s']|].
Qed.

Lemma writes_ret_then {A B : Type} (a : A) (k : A -> Out B) l b :
  writes (k a) l b -> writes (x <- ret a ;; k x) l b.
Proof. intros H pre fill post Hlen. exact (H pre fill post Hlen). Qed.

(** ** Slices *)

Lemma length_make (n : Z) : length (make n) = Z.to_nat n.
Proof. apply repeat_length. Qed.

Lemma slice_to_prefix (l rest : list byte) :
  slice_to (l ++ rest) (length l) = Some l.
Proof.
  unfold slice_to. rewrite length_app.
  destruct (Nat.leb_spec (length l) (length l + length rest)); [|lia].
  now rewrite firstn_app, Nat.sub_diag, firstn_all, firstn_O, app_nil_r.
Qed.

(** * Bit-level reasoning *)

Lemma wrap_int32_small z : - 2 ^ 31 <= z < 2 ^ 31 -> wrap_int32 z = z.
Proof. intros H. unfold wrap_int32. rewrite Z.mod_small; lia. Qed.

Lemma shiftl_range x k n :
  0 <= x < 2 ^ n -> 0 <= k -> 0 <= n -> 0 <= Z.shiftl x k < 2 ^ (n + k).
Proof.
  intros Hx Hk Hn. rewrite Z.shiftl_mul_pow2, Z.pow_add_r by lia.
  assert (0 < 2 ^ k) by (apply Z.pow_pos_nonneg; lia). nia.
Qed.

(** A left shift of a value of at most 16 bits by at most 8 does not
    overflow an [int32]. *)
Lemma shl_int32_small x k :
  0 <= x < 2 ^ 16 -> 0 <= k <= 8 -> shl_int32 x k = Z.shiftl x k.
Proof.
  intros Hx Hk. unfold shl_int32. apply wrap_int32_small.
  pose proof (shiftl_range x k 16 Hx ltac:(lia) ltac:(lia)) as H.
  assert (2 ^ (16 + k) <= 2 ^ 24) by (apply Z.pow_le_mono_r; lia).
  lia.
Qed.

(** The masks of the source, as remainders. *)
Lemma land_1 a : Z.land a 1 = a mod 2 ^ 1.
Proof. exact (Z.land_ones a 1 ltac:(lia)). Qed.
Lemma land_3 a : Z.land a 3 = a mod 2 ^ 2.
Proof. exact (Z.land_ones a 2 ltac:(lia)). Qed.
Lemma land_7 a : Z.land a 7 = a mod 2 ^ 3.
Proof. exact (Z.land_ones a 3 ltac:(lia)). Qed.
Lemma land_15 a : Z.land a 15 = a mod 2 ^ 4.
Proof. exact (Z.land_ones a 4 ltac:(lia)). Qed.
Lemma land_31 a : Z.land a 31 = a mod 2 ^ 5.
Proof. exact (Z.land_ones a 5 ltac:(lia)). Qed.
Lemma land_63 a : Z.land a 63 = a mod 2 ^ 6.
Proof. exact (Z.land_ones a 6 ltac:(lia)). Qed.
Lemma land_127 a : Z.land a 127 = a mod 2 ^ 7.
Proof. exact (Z.land_ones a 7 ltac:(lia)). Qed.
Lemma land_255 a : Z.land a 255 = a mod 2 ^ 8.
Proof. exact (Z.land_ones a 8 ltac:(lia)). Qed.

Ltac masks :=
  rewrite ?land_1, ?land_3, ?land_7, ?land_15, ?land_31, ?land_63,
    ?land_127, ?land_255.

(** Every [byte.unsigned c] of the goal becomes a variable reduced
    modulo 2^8, so that its high bits are visibly zero. *)
Ltac bytes_as_bits :=
  repeat match goal with
         | |- context [byte.unsigned ?c] =>
             let X := fresh "X" in
             rewrite <- (byte.wrap_unsigned c);
             unfold byte.wrap;
             generalize (byte.unsigned c); intros X
         end.

(** The comparisons on the bit index are settled one at a time, so that
    only the consistent ranges of the index are kept. *)
Ltac prune_ltbs :=
  repeat match goal with
         | |- context [?a <? ?b] =>
             first [ rewrite (proj2 (Z.ltb_lt a b)) by lia
                   | rewrite (proj2 (Z.ltb_ge a b)) by lia
                   | destruct (Z.ltb_spec a b) ]
         end.

(** Equality of two integers built from shifts, masks and ors, bit by
    bit. *)
Ltac bits :=
  masks;
  apply Z.bits_inj'; intros ?i ?Hi;
  repeat (progress (autorewrite with z_bitwise_no_hyps z_bitwise_with_hyps
                      z_bitwise_forced_no_hyps));
  prune_ltbs;
  repeat match goal with
         | |- context [Z.testbit ?a ?j] =>
             rewrite (Z.testbit_neg_r a j) by lia
         end;
  cbn [andb orb negb];
  Z.discover_equal_testbit_indices;
  try btauto.

Lemma byte_of_Z_eq z (c : byte) : z mod 2 ^ 8 = byte.unsigned c -> byte.of_Z z = c.
Proof.
  intros H. apply byte.unsigned_inj. now rewrite byte.unsigned_of_Z.
Qed.

(** * The encoder against its functional model *)

Lemma carry_range order p x :
  0 <= x < 2 ^ 8 -> (1 <= p <= 4)%nat -> 0 <= carry order p x < 2 ^ 8.
Proof.
  intros Hx Hp.
  assert (Hp' : p = 1%nat \/ p = 2%nat \/ p = 3%nat \/ p = 4%nat) by lia.
  destruct order, Hp' as [-> | [-> | [-> | ->]]]; cbn [carry];
    rewrite ?Z.shiftr_div_pow2, ?Z.shiftl_mul_pow2 by lia; masks; lia.
Qed.

Lemma carry_0 order x : carry order 0 x = -1.
Proof. now destruct order. Qed.

Ltac unwrap_shl :=
  rewrite ?shl_int32_small
    by (first [ lia
              | pose proof (byte.unsigned_range) as Hr;
                match goal with
                | |- _ <= byte.unsigned ?c < _ => specialize (Hr c); lia
                end
              | match goal with
                | |- _ <= Z.land ?a ?m < _ =>
                    masks;
                    match goal with
                    | |- _ <= ?a mod ?d < _ =>
                        pose proof (Z.mod_pos_bound a d ltac:(lia)); lia
                    end
                end
              | match goal with
                | |- _ <= Z.shiftl (Z.land ?a _) ?k < _ =>
                    rewrite Z.shiftl_mul_pow2 by lia; masks; lia
                end ]).

Lemma encode_case_writes order tbl i (x c : byte) :
  writes (encode_case order tbl i c (carry order (i mod 5) (byte.unsigned x)))
    (map (index tbl)
       (emitted order (i mod 5) (carry order (i mod 5) (byte.unsigned x))
          (byte.unsigned c)))
    (carry order (S i mod 5) (byte.unsigned c)).
Proof.
  replace (S i mod 5)%nat with (S (i mod 5) mod 5)%nat by lia.
  assert (Hp : (i mod 5 < 5)%nat) by lia.
  destruct order; cbn [encode_case];
    unfold encode_inversed_case, encode_normal_case.
  all: destruct (i mod 5)%nat as [|[|[|[|[|p]]]]]; [ | | | | | lia].
  all: cbn [carry emitted map Nat.modulo Nat.divmod fst snd Nat.sub].
  all: unwrap_shl.
  all: repeat apply writes_put_then; apply writes_ret_eq.
  all: try reflexivity.
  all: bytes_as_bits; bits.
Qed.

Lemma encode_loop_writes order tbl input : forall i (x : byte),
  writes
    (remain <- encode_loop (encode_case order tbl) i input
                 (carry order (i mod 5) (byte.unsigned x)) ;;
     encode_final tbl remain)
    (map (index tbl) (values order (i mod 5) (byte.unsigned x) input))
    tt.
Proof.
  induction input as [|c rest IH]; intros i x.
  - cbn [encode_loop values]. apply writes_ret_then. unfold encode_final.
    assert (Hp : (i mod 5 < 5)%nat) by lia.
    destruct (i mod 5)%nat as [|p] eqn:E.
    + rewrite carry_0. cbn. apply writes_ret.
    + pose proof (carry_range order (S p) (byte.unsigned x)
                    (byte.unsigned_range x) ltac:(lia)) as Hc.
      destruct (Z.geb_spec (carry order (S p) (byte.unsigned x)) 0); [|lia].
      cbn [map]. apply writes_put.
  - cbn [encode_loop values]. apply writes_assoc.
    rewrite map_app.
    eapply writes_bind; [apply encode_case_writes|].
    replace (S (i mod 5) mod 5)%nat with (S i mod 5)%nat by lia.
    apply IH.
Qed.

Lemma EncodeToSlice_run (input : list byte) (alphabet : Alphabet) :
  writes
    (remain <- match encodeOrder alphabet with
               | OrderInversed =>
                   encode_loop (encode_inversed_case (encodeSymbols alphabet))
                     0 input (-1)
               | OrderNormal =>
                   encode_loop (encode_normal_case (encodeSymbols alphabet))
                     0 input (-1)
               end ;;
     if remain >=? 0
     then put (index (encodeSymbols alphabet) (Z.land remain 31))
     else ret tt)
    (encoding alphabet input) tt.
Proof.
  pose proof (encode_loop_writes (encodeOrder alphabet)
                (encodeSymbols alphabet) input 0 x00) as H.
  unfold encoding. cbn [Nat.modulo Nat.divmod fst snd Nat.sub] in H.
  rewrite carry_0 in H. change (byte.unsigned x00) with 0 in H.
  destruct (encodeOrder alphabet); exact H.
Qed.

(** [EncodeToSlice] on a slice that can hold the encoding: no panic, the
    count is the length of the encoding, which sits at the start of the
    slice. *)
Lemma EncodeToSlice_encoding (input output : list byte) (alphabet : Alphabet) :
  (length (encoding alphabet input) <= length output)%nat ->
  EncodeToSlice input output alphabet
  = Some (length (encoding alphabet input),
          encoding alphabet input
            ++ skipn (length (encoding alphabet input)) output).
Proof.
  intros Hlen. unfold EncodeToSlice.
  cbv zeta.
  now rewrite (writes_run _ _ _ output (EncodeToSlice_run input alphabet) Hlen).
Qed.

(** ** The number of symbols *)

Lemma length_emitted order p r y :
  (p < 5)%nat -> length (emitted order p r y) = (8 * S p / 5 - 8 * p / 5)%nat.
Proof.
  intros Hp.
  destruct order, p as [|[|[|[|[|p]]]]]; try lia; reflexivity.
Qed.

Lemma length_values order input : forall p x,
  (p < 5)%nat ->
  length (values order p x input)
  = ((8 * (p + length input) + 4) / 5 - 8 * p / 5)%nat.
Proof.
  induction input as [|c rest IH]; intros p x Hp.
  - cbn [values length].
    destruct p as [|[|[|[|[|p]]]]]; try lia; reflexivity.
  - cbn [values]. rewrite length_app, IH, length_emitted by lia.
    cbn [length].
    destruct p as [|[|[|[|[|p]]]]]; try lia;
      cbn [Nat.modulo Nat.divmod fst snd Nat.sub]; lia.
Qed.

(** The encoding of [n] bytes has ceil(8n/5) symbols. *)
Lemma length_encoding (alphabet : Alphabet) (input : list byte) :
  length (encoding alphabet input) = ((8 * length input + 4) / 5)%nat.
Proof.
  unfold encoding. rewrite length_map, length_values by lia.
  cbn. lia.
Qed.

Lemma EncodedLen_nat (n : nat) :
  EncodedLen (Z.of_nat n) = Z.of_nat (n / 5 * 8 + n mod 5 * 2 + 1).
Proof.
  unfold EncodedLen. cbv zeta.
  rewrite Z.quot_div_nonneg, Z.rem_mod_nonneg by lia. lia.
Qed.

Lemma DecodedLen_nat (n : nat) :
  DecodedLen (Z.of_nat n) = Z.of_nat (n / 8 * 5 + n mod 8).
Proof.
  unfold DecodedLen. cbv zeta.
  rewrite Z.quot_div_nonneg, Z.rem_mod_nonneg by lia. lia.
Qed.

(** [EncodeAlphabet] never panics and returns the encoding. *)
Lemma EncodeAlphabet_encoding (input : list byte) (alphabet : Alphabet) :
  EncodeAlphabet input alphabet = Some (encoding alphabet input).
Proof.
  unfold EncodeAlphabet. cbv zeta.
  assert (Hlen : (length (encoding alphabet input)
                  <= length (make (EncodedLen (len input))))%nat).
  { rewrite length_make, length_encoding. unfold len.
    rewrite EncodedLen_nat. lia. }
  rewrite (EncodeToSlice_encoding _ _ _ Hlen).
  apply slice_to_prefix.
Qed.

(** * The decoder against its functional model *)

Ltac by_decoding_IH IH :=
  match goal with
  | |- context [decoding ?o ?t ?i ?l (?p, ?a)] =>
      specialize (IH p a);
      destruct (decoding o t i l (p, a)) as [? ?];
      cbn [fst snd app] in IH |- *;
      repeat first [ apply writes_assoc
                   | apply writes_put_then
                   | apply writes_ret_then ];
      cbn [fst snd]; exact IH
  end.

Lemma decode_from_writes order dtbl input : forall i processedBits acc,
  writes (decode_from order dtbl i input processedBits acc)
    (fst (decoding order dtbl i input (processedBits, acc)))
    (snd (decoding order dtbl i input (processedBits, acc))).
Proof.
  induction input as [|c rest IH]; intros i pb acc.
  - destruct order; cbn [decode_from decode_inversed decode_normal decoding
                          flush fst snd].
    + apply writes_ret.
    + destruct (pb >? 0).
      * apply writes_put_then, writes_ret.
      * apply writes_ret.
  - specialize (IH (S i)).
    destruct order;
      cbn [decode_from decode_inversed decode_normal decoding stall feed1
             fst snd] in IH |- *.
    + destruct (Byte.eqb _ xff); [apply writes_ret|].
      destruct (pb + 5 >=? 8); by_decoding_IH IH.
    + destruct (Byte.eqb _ xff), (pb >=? 8); cbn [fst snd].
      * apply writes_assoc, writes_put_then, writes_ret_then, writes_ret.
      * apply writes_ret_then, writes_ret.
      * by_decoding_IH IH.
      * by_decoding_IH IH.
Qed.

Lemma eqb_xff_valid dtbl c :
  Byte.eqb (index dtbl (byte.unsigned c)) xff = false <-> valid dtbl c.
Proof.
  unfold valid. split.
  - apply Byte.eqb_false.
  - intros H. destruct (Byte.eqb _ xff) eqn:E; [|reflexivity].
    now apply Byte.byte_dec_bl in E.
Qed.

Lemma eqb_xff_invalid dtbl c :
  Byte.eqb (index dtbl (byte.unsigned c)) xff = true <-> ~ valid dtbl c.
Proof.
  unfold valid. split.
  - intros E H. now apply Byte.byte_dec_bl in E.
  - intros H. destruct (Byte.eqb _ xff) eqn:E; [reflexivity|].
    apply Byte.eqb_false in E. contradiction.
Qed.

(** Decoding a run of valid symbols feeds their values to the
    accumulator; the rest of the input is decoded from the state
    reached. *)
Lemma decoding_app order dtbl l1 : forall l2 i st,
  Forall (valid dtbl) l1 ->
  decoding order dtbl i (l1 ++ l2) st
  = (fst (feed order st (map (value dtbl) l1))
       ++ fst (decoding order dtbl (i + length l1) l2
                 (snd (feed order st (map (value dtbl) l1)))),
     snd (decoding order dtbl (i + length l1) l2
            (snd (feed order st (map (value dtbl) l1))))).
Proof.
  induction l1 as [|c l1 IH]; intros l2 i st Hv.
  - cbn [app map feed fst snd length]. rewrite Nat.add_0_r.
    now destruct (decoding order dtbl i l2 st).
  - inversion Hv as [|? ? Hc Hl1]; subst.
    cbn [app map feed decoding length].
    apply eqb_xff_valid in Hc. rewrite Hc.
    fold (value dtbl c).
    destruct (feed1 order st (value dtbl c)) as [out st1].
    rewrite (IH l2 (S i) st1 Hl1).
    destruct (feed order st1 (map (value dtbl) l1)) as [out' st2].
    cbn [fst snd].
    replace (i + S (length l1))%nat with (S i + length l1)%nat by lia.
    now rewrite app_assoc.
Qed.

(** ** The number of bytes *)

Lemma feed1_ready order pb acc v :
  ready order pb ->
  ready order (fst (snd (feed1 order (pb, acc) v)))
  /\ 8 * Z.of_nat (length (fst (feed1 order (pb, acc) v)))
       + fst (snd (feed1 order (pb, acc) v)) = pb + 5.
Proof.
  destruct order; cbn [ready feed1]; intros H.
  - destruct (Z.geb_spec (pb + 5) 8); cbn [fst snd length]; lia.
  - destruct (Z.geb_spec pb 8); cbn [fst snd length]; lia.
Qed.

Lemma length_flush order pb acc :
  ready order pb ->
  8 * Z.of_nat (length (flush order (pb, acc))) <= pb + slack order
  /\ pb + slack order <= 8 * Z.of_nat (length (flush order (pb, acc))) + 7.
Proof.
  destruct order; cbn [ready flush slack fst snd]; intros H.
  - cbn [length]. lia.
  - destruct (Z.gtb_spec pb 0); cbn [length]; lia.
Qed.

Lemma length_stall order pb acc :
  ready order pb ->
  8 * Z.of_nat (length (stall order (pb, acc))) <= pb.
Proof.
  destruct order; cbn [ready stall fst snd]; intros H.
  - cbn [length]. lia.
  - destruct (Z.geb_spec pb 8); cbn [length]; lia.
Qed.

(** Whatever the input, the bytes written fit in the bits read. *)
Lemma length_decoding order dtbl input : forall i pb acc,
  ready order pb ->
  8 * Z.of_nat (length (fst (decoding order dtbl i input (pb, acc))))
  <= pb + 5 * Z.of_nat (length input) + slack order.
Proof.
  induction input as [|c rest IH]; intros i pb acc Hr; cbn [decoding].
  - pose proof (length_flush order pb acc Hr). cbn [fst length]. lia.
  - destruct (Byte.eqb _ xff).
    + pose proof (length_stall order pb acc Hr).
      cbn [fst length]. destruct order; cbn [slack]; lia.
    + pose proof (feed1_ready order pb acc
                    (byte.unsigned (index dtbl (byte.unsigned c))) Hr)
        as [Hr' Hlen].
      destruct (feed1 order (pb, acc) _) as [out [pb' acc']].
      cbn [fst snd] in Hr', Hlen.
      specialize (IH (S i) pb' acc' Hr').
      destruct (decoding order dtbl (S i) rest (pb', acc')) as [out' e].
      cbn [fst snd length] in IH |- *. rewrite length_app. lia.
Qed.

(** On valid input there is no error and the count is exact. *)
Lemma decoding_valid order dtbl input : forall i pb acc,
  ready order pb ->
  Forall (valid dtbl) input ->
  snd (decoding order dtbl i input (pb, acc)) = None
  /\ pb + 5 * Z.of_nat (length input) + slack order
     <= 8 * Z.of_nat (length (fst (decoding order dtbl i input (pb, acc)))) + 7.
Proof.
  induction input as [|c rest IH]; intros i pb acc Hr Hv; cbn [decoding].
  - pose proof (length_flush order pb acc Hr). cbn [fst snd length].
    split; [reflexivity | lia].
  - inversion Hv as [|? ? Hc Hrest]; subst.
    apply eqb_xff_valid in Hc. rewrite Hc.
    pose proof (feed1_ready order pb acc
                  (byte.unsigned (index dtbl (byte.unsigned c))) Hr)
      as [Hr' Hlen].
    destruct (feed1 order (pb, acc) _) as [out [pb' acc']].
    cbn [fst snd] in Hr', Hlen.
    specialize (IH (S i) pb' acc' Hr' Hrest).
    destruct (decoding order dtbl (S i) rest (pb', acc')) as [out' e].
    cbn [fst snd length] in IH |- *. rewrite length_app.
    split; [apply IH | lia].
Qed.

Lemma ready_0 order : ready order 0.
Proof. destruct order; cbn; lia. Qed.

(** The bytes written never exceed [DecodedLen]. *)
Lemma length_decoding_DecodedLen order dtbl input :
  Z.of_nat (length (fst (decoding order dtbl 0 input (0, 0))))
  <= DecodedLen (len input).
Proof.
  pose proof (length_decoding order dtbl input 0 0 0 (ready_0 order)) as H.
  unfold len. rewrite DecodedLen_nat.
  destruct order; cbn [slack] in H; lia.
Qed.

(** [DecodeAlphabetToSlice] on a buffer that can hold the bytes written. *)
Lemma DecodeAlphabetToSlice_decoded (input buffer : list byte)
    (alphabet : Alphabet) :
  (length (fst (decoded alphabet input)) <= length buffer)%nat ->
  DecodeAlphabetToSlice input buffer alphabet
  = Some (match snd (decoded alphabet input) with
          | Some e => (0%nat, Some e)
          | None => (length (fst (decoded alphabet input)), None)
          end,
          fst (decoded alphabet input)
            ++ skipn (length (fst (decoded alphabet input))) buffer).
Proof.
  intros Hlen. unfold DecodeAlphabetToSlice. cbv zeta.
  pose proof (decode_from_writes (encodeOrder alphabet) (decodeBytes alphabet)
                input 0 0 0) as H.
  fold (decoded alphabet input) in H.
  apply (writes_run _ _ _ buffer) in H; [|exact Hlen].
  replace (match encodeOrder alphabet with
           | OrderNormal => decode_normal (decodeBytes alphabet) 0 input 0 0
           | OrderInversed => decode_inversed (decodeBytes alphabet) 0 input 0 0
           end)
    with (decode_from (encodeOrder alphabet) (decodeBytes alphabet) 0 input 0 0)
    by now destruct (encodeOrder alphabet).
  rewrite H. now destruct (snd (decoded alphabet input)).
Qed.

(** [DecodeAlphabet] never panics. *)
Lemma DecodeAlphabet_decoded (input : list byte) (alphabet : Alphabet) :
  DecodeAlphabet input alphabet
  = Some (match snd (decoded alphabet input) with
          | Some e => ([], Some e)
          | None => (fst (decoded alphabet input), None)
          end).
Proof.
  unfold DecodeAlphabet. cbv zeta.
  rewrite DecodeAlphabetToSlice_decoded.
  - destruct (snd (decoded alphabet input)); [reflexivity|].
    now rewrite slice_to_prefix.
  - rewrite length_make.
    pose proof (length_decoding_DecodedLen (encodeOrder alphabet)
                  (decodeBytes alphabet) input).
    unfold decoded. lia.
Qed.

(** * Building alphabets *)

Lemma index_upd_same (t : list byte) (b v : byte) :
  length t = 256%nat ->
  index (List.upd t (Z.to_nat (byte.unsigned b)) v) (byte.unsigned b) = v.
Proof.
  intros Hlen. unfold index. apply List.nth_upd_same.
  pose proof (byte.unsigned_range b). lia.
Qed.

Lemma index_upd_diff (t : list byte) (b x v : byte) :
  x <> b ->
  index (List.upd t (Z.to_nat (byte.unsigned b)) v) (byte.unsigned x)
  = index t (byte.unsigned x).
Proof.
  intros Hne. unfold index. apply List.nth_upd_diff.
  intros H. apply Hne, byte.unsigned_inj.
  pose proof (byte.unsigned_range b). pose proof (byte.unsigned_range x). lia.
Qed.

(** Recording one more symbol keeps the reverse table an inverse. *)
Lemma inverts_snoc (done t : list byte) (b : byte) :
  length t = 256%nat ->
  ~ In b done ->
  inverts done t ->
  inverts (done ++ [b])
    (List.upd t (Z.to_nat (byte.unsigned b))
       (byte.of_Z (Z.of_nat (length done)))).
Proof.
  intros Hlen Hnew [Hfwd Hbwd]. split.
  - intros j Hj. rewrite length_app in Hj. cbn [length] in Hj.
    destruct (Nat.eq_dec j (length done)) as [-> | Hne].
    + rewrite nth_middle. now apply index_upd_same.
    + rewrite app_nth1 by lia.
      rewrite index_upd_diff; [apply Hfwd; lia|].
      intros Heq. apply Hnew. rewrite <- Heq. apply nth_In. lia.
  - intros x Hx. rewrite index_upd_diff.
    + apply Hbwd. intros Hin. apply Hx, in_or_app. now left.
    + intros ->. apply Hx, in_or_app. right. now left.
Qed.

Lemma mark_spec (duplicates : byte -> bool) (done : list byte) (b : byte) :
  (forall x, duplicates x = true <-> In x done) ->
  forall x, mark duplicates b x = true <-> In x (done ++ [b]).
Proof.
  intros H x. unfold mark. rewrite in_app_iff. cbn [In].
  destruct (Byte.eqb x b) eqn:E.
  - apply Byte.byte_dec_bl in E. subst. tauto.
  - apply Byte.eqb_false in E. rewrite H.
    split; [tauto | intros [Hin | [Heq | []]]; [exact Hin | congruence]].
Qed.

Lemma printable_test (b : byte) :
  (byte.unsigned b <? 32) || (byte.unsigned b >? 126) = false <-> printable b.
Proof.
  unfold printable.
  destruct (Z.ltb_spec (byte.unsigned b) 32),
    (Z.gtb_spec (byte.unsigned b) 126); cbn; split; intros; try lia;
    try discriminate; reflexivity.
Qed.

Lemma scanned_snoc done symbols t duplicates (b : byte) :
  scanned done symbols t duplicates ->
  (length done < length symbols)%nat ->
  printable b ->
  duplicates b = false ->
  scanned (done ++ [b]) (List.upd symbols (length done) b)
    (List.upd t (Z.to_nat (byte.unsigned b))
       (byte.of_Z (Z.of_nat (length done))))
    (mark duplicates b).
Proof.
  intros [Hs Hl Hi Hd Hn Hp] Hlt Hb Hdup.
  assert (Hnew : ~ In b done).
  { intros Hin. apply Hd in Hin. congruence. }
  constructor.
  - rewrite List.upd_length, length_app. cbn [length].
    rewrite Hs at 1.
    replace (length symbols - length done)%nat
      with (S (length symbols - (length done + 1)))%nat by lia.
    cbn [repeat]. rewrite upd_middle. now rewrite <- app_assoc.
  - now rewrite List.upd_length.
  - now apply inverts_snoc.
  - now apply mark_spec.
  - apply NoDup_app; [exact Hn | repeat constructor; intros [] | ].
    intros x Hin [<- | []]. contradiction.
  - apply Forall_app. split; [exact Hp | now constructor].
Qed.

(** The loop of [NewAlphabet] runs through a prefix of printable, distinct
    bytes. *)
Lemma NewAlphabet_loop_prefix pre : forall rest done symbols t duplicates,
  scanned done symbols t duplicates ->
  (length done + length pre <= length symbols)%nat ->
  Forall printable pre ->
  NoDup (done ++ pre) ->
  exists symbols' t' duplicates',
    NewAlphabet_loop (length done) (pre ++ rest) symbols t duplicates
    = NewAlphabet_loop (length (done ++ pre)) rest symbols' t' duplicates'
    /\ scanned (done ++ pre) symbols' t' duplicates'
    /\ length symbols' = length symbols.
Proof.
  induction pre as [|b pre IH]; intros rest done symbols t dups Hsc Hlen Hp Hn.
  - exists symbols, t, dups. now rewrite app_nil_r.
  - inversion Hp as [|? ? Hb Hpre]; subst.
    assert (Hnew : ~ In b done).
    { intros Hin. apply NoDup_remove_2 in Hn. apply Hn, in_or_app. now left. }
    assert (Hdup : dups b = false).
    { destruct (dups b) eqn:E; [|reflexivity].
      apply (scanned_duplicates _ _ _ _ Hsc) in E. contradiction. }
    cbn [length] in Hlen.
    pose proof (scanned_snoc _ _ _ _ b Hsc ltac:(lia) Hb Hdup) as Hsc'.
    cbn [app NewAlphabet_loop].
    apply printable_test in Hb. rewrite Hb, Hdup.
    replace (S (length done)) with (length (done ++ [b]))
      by (rewrite length_app; cbn; lia).
    destruct (IH rest (done ++ [b]) _ _ _ Hsc') as (s' & t' & d' & He & Hs & Hl).
    + rewrite List.upd_length, length_app. cbn [length]. lia.
    + exact Hpre.
    + now rewrite <- app_assoc.
    + exists s', t', d'. rewrite <- app_assoc in He, Hs. cbn [app] in He, Hs.
      rewrite List.upd_length in Hl. now split.
Qed.

Lemma printable_dec (b : byte) : {printable b} + {~ printable b}.
Proof.
  unfold printable.
  destruct (Z_le_dec 32 (byte.unsigned b)), (Z_le_dec (byte.unsigned b) 126);
    (now left) || (right; lia).
Qed.

Lemma clean_or_fault (l : list byte) :
  clean l
  \/ exists pre b post e, l = pre ++ b :: post /\ clean pre /\ fault pre b e.
Proof.
  induction l as [|x l IH] using rev_ind.
  - left. split; constructor.
  - destruct IH as [[Hp Hn] | (pre & b & post & e & -> & Hc & Hf)].
    + destruct (printable_dec x) as [Hx | Hx].
      * destruct (in_dec Byte.byte_eq_dec x l) as [Hin | Hnin].
        -- right. exists l, x, [], (DuplicatedByte x).
           split; [reflexivity | split; [now split | now constructor]].
        -- left. split.
           ++ apply Forall_app. split; [exact Hp | now constructor].
           ++ apply NoDup_app; [exact Hn | repeat constructor; intros [] | ].
              intros y Hy [<- | []]. contradiction.
      * right. exists l, x, [], (UnprintableByte x).
        split; [reflexivity | split; [now split | now constructor]].
    + right. exists pre, b, (post ++ [x]), e.
      rewrite <- app_assoc. split; [reflexivity | now split].
Qed.

Lemma scanned_start :
  scanned [] (repeat x00 (Z.to_nat AlphabetSize))
    (invalidate (repeat x00 256)) (fun _ => false).
Proof.
  constructor.
  - cbn [app length]. now rewrite Nat.sub_0_r, repeat_length.
  - reflexivity.
  - split; [cbn; lia|].
    intros x _. unfold index, invalidate.
    pose proof (byte.unsigned_range x).
    rewrite nth_indep with (d' := xff) by (rewrite length_map; cbn; lia).
    change xff with ((fun _ : byte => xff) x00). rewrite map_nth. reflexivity.
  - intros x. cbn. split; [discriminate | tauto].
  - constructor.
  - constructor.
Qed.

(** [NewAlphabet] on a string of exactly 32 clean bytes. *)
Lemma NewAlphabet_clean (alphabet : list byte) (order : EncodeOrder) :
  length alphabet = 32%nat ->
  clean alphabet ->
  exists t,
    NewAlphabet alphabet order = inr (mkAlphabet alphabet t order)
    /\ inverts alphabet t /\ length t = 256%nat.
Proof.
  intros Hlen [Hp Hn]. unfold NewAlphabet, len. rewrite Hlen. cbn [negb Z.eqb].
  change (Z.of_nat 32 =? AlphabetSize) with true. cbn [negb]. cbv zeta.
  destruct (NewAlphabet_loop_prefix alphabet [] [] _ _ _ scanned_start)
    as (s' & t' & d' & He & Hs & Hl).
  - rewrite repeat_length. cbn. lia.
  - exact Hp.
  - exact Hn.
  - cbn [app length] in He, Hs. rewrite app_nil_r in He. rewrite He.
    cbn [NewAlphabet_loop].
    destruct Hs as [Hsym Htl Hinv _ _ _].
    rewrite Hl, repeat_length in Hsym.
    replace (Z.to_nat AlphabetSize - length alphabet)%nat with 0%nat in Hsym
      by (rewrite Hlen; reflexivity).
    cbn [repeat] in Hsym. rewrite app_nil_r in Hsym. subst s'.
    exists t'. split; [reflexivity | split; assumption].
Qed.

(** [NewAlphabet] on a string of exactly 32 bytes with a first fault. *)
Lemma NewAlphabet_fault (pre post : list byte) (b : byte) e order :
  length (pre ++ b :: post) = 32%nat ->
  clean pre ->
  fault pre b e ->
  NewAlphabet (pre ++ b :: post) order = inl e.
Proof.
  intros Hlen [Hp Hn] Hf. unfold NewAlphabet, len. rewrite Hlen.
  change (Z.of_nat 32 =? AlphabetSize) with true. cbn [negb]. cbv zeta.
  rewrite length_app in Hlen. cbn [length] in Hlen.
  destruct (NewAlphabet_loop_prefix pre (b :: post) [] _ _ _ scanned_start)
    as (s' & t' & d' & He & Hs & Hl).
  - rewrite repeat_length. cbn. lia.
  - exact Hp.
  - exact Hn.
  - cbn [app length] in He, Hs. rewrite He. cbn [NewAlphabet_loop].
    destruct Hf as [Hb | Hb Hin].
    + destruct ((byte.unsigned b <? 32) || (byte.unsigned b >? 126)) eqn:E;
        [reflexivity|].
      apply printable_test in E. contradiction.
    + apply printable_test in Hb. rewrite Hb.
      apply (scanned_duplicates _ _ _ _ Hs) in Hin. now rewrite Hin.
Qed.

Lemma NewAlphabet_length (alphabet : list byte) (order : EncodeOrder) :
  NewAlphabet alphabet order = inl InvalidLength <-> length alphabet <> 32%nat.
Proof.
  split.
  - intros H Hlen.
    destruct (clean_or_fault alphabet)
      as [Hc | (pre & b & post & e & -> & Hc & Hf)].
    + destruct (NewAlphabet_clean alphabet order Hlen Hc) as (t & He & _).
      congruence.
    + rewrite (NewAlphabet_fault pre post b e order Hlen Hc Hf) in H.
      destruct Hf; discriminate.
  - intros Hlen. unfold NewAlphabet, len.
    destruct (Z.eqb_spec (Z.of_nat (length alphabet)) AlphabetSize) as [E|E].
    + unfold AlphabetSize in E. lia.
    + reflexivity.
Qed.

(** ** The predefined alphabets *)

Lemma all_bytes_complete (x : byte) : In x all_bytes.
Proof.
  unfold all_bytes. apply in_map_iff.
  exists (Z.to_nat (byte.unsigned x)).
  pose proof (byte.unsigned_range x). split.
  - rewrite Z2Nat.id by lia. apply byte.of_Z_unsigned.
  - apply in_seq. lia.
Qed.

Lemma inverts_check_sound (symbols t : list byte) :
  inverts_check symbols t = true -> inverts symbols t.
Proof.
  unfold inverts_check. intros H.
  apply andb_true_iff in H. destruct H as [Hf Hb].
  rewrite forallb_forall in Hf, Hb. split.
  - intros j Hj. apply Byte.byte_dec_bl, Hf, in_seq. lia.
  - intros x Hx. specialize (Hb x (all_bytes_complete x)).
    apply orb_true_iff in Hb. destruct Hb as [Hin | Heq].
    + apply existsb_exists in Hin. destruct Hin as (y & Hy & E).
      apply Byte.byte_dec_bl in E. subst. contradiction.
    + now apply Byte.byte_dec_bl.
Qed.

Lemma ZBASE32_inverts : inverts (encodeSymbols ZBASE32) (decodeBytes ZBASE32).
Proof. apply inverts_check_sound. vm_compute. reflexivity. Qed.

Lemma RFC4648_inverts : inverts (encodeSymbols RFC4648) (decodeBytes RFC4648).
Proof. apply inverts_check_sound. vm_compute. reflexivity. Qed.

Lemma BECH32_inverts : inverts (encodeSymbols BECH32) (decodeBytes BECH32).
Proof. apply inverts_check_sound. vm_compute. reflexivity. Qed.

Lemma NewAlphabet_inr (alphabet : list byte) order a :
  NewAlphabet alphabet order = inr a ->
  length alphabet = 32%nat /\ clean alphabet
  /\ encodeSymbols a = alphabet /\ encodeOrder a = order
  /\ inverts alphabet (decodeBytes a) /\ length (decodeBytes a) = 256%nat.
Proof.
  intros H.
  destruct (Nat.eq_dec (length alphabet) 32) as [Hlen | Hlen].
  - destruct (clean_or_fault alphabet)
      as [Hc | (pre & b & post & e & -> & Hc & Hf)].
    + destruct (NewAlphabet_clean alphabet order Hlen Hc) as (t & He & Hi & Ht).
      rewrite He in H. injection H as <-. cbn [encodeSymbols encodeOrder decodeBytes].
      split; [exact Hlen|]. split; [exact Hc|]. split; [reflexivity|].
      split; [reflexivity|]. split; assumption.
    + rewrite (NewAlphabet_fault pre post b e order Hlen Hc Hf) in H.
      discriminate.
  - apply (NewAlphabet_length alphabet order) in Hlen. congruence.
Qed.

Lemma constructed_inverts a :
  constructed a ->
  length (encodeSymbols a) = 32%nat
  /\ inverts (encodeSymbols a) (decodeBytes a).
Proof.
  intros [spec order a' H | | | ].
  - apply NewAlphabet_inr in H.
    destruct H as (Hlen & _ & -> & _ & Hi & _). now split.
  - split; [reflexivity | apply ZBASE32_inverts].
  - split; [reflexivity | apply RFC4648_inverts].
  - split; [reflexivity | apply BECH32_inverts].
Qed.

(** ** Constructed alphabets *)

Lemma of_Z_small_not_xff (j : Z) : 0 <= j < 32 -> byte.of_Z j <> xff.
Proof.
  intros Hj E. apply (f_equal byte.unsigned) in E.
  rewrite byte.unsigned_of_Z in E. unfold byte.wrap in E.
  rewrite Z.mod_small in E by lia. change (byte.unsigned xff) with 255 in E.
  lia.
Qed.

(** The arrays have the lengths of their Go types. *)
Lemma constructed_lengths alphabet :
  constructed alphabet ->
  length (encodeSymbols alphabet) = 32%nat
  /\ length (decodeBytes alphabet) = 256%nat.
Proof.
  intros [spec order a H | | | ].
  - apply NewAlphabet_inr in H.
    destruct H as (Hlen & _ & -> & _ & _ & Ht). now split.
  - split; reflexivity.
  - split; reflexivity.
  - split; reflexivity.
Qed.

Section Constructed.

Variable alphabet : Alphabet.
Hypothesis Hconstructed : constructed alphabet.

(** The valid symbols are the 32 of the forward table. *)
Lemma constructed_valid (c : byte) :
  valid (decodeBytes alphabet) c <-> In c (encodeSymbols alphabet).
Proof.
  destruct (constructed_inverts alphabet Hconstructed) as [Hlen [Hf Hb]].
  unfold valid. split.
  - intros Hv.
    destruct (in_dec Byte.byte_eq_dec c (encodeSymbols alphabet))
      as [Hin | Hnin]; [exact Hin|].
    now apply Hb in Hnin.
  - intros Hin. apply (In_nth _ _ x00) in Hin.
    destruct Hin as (j & Hj & <-). rewrite (Hf j Hj).
    apply of_Z_small_not_xff. lia.
Qed.

(** Each symbol decodes to its index. *)
Lemma constructed_value (v : Z) :
  0 <= v < 32 ->
  valid (decodeBytes alphabet) (index (encodeSymbols alphabet) v)
  /\ value (decodeBytes alphabet) (index (encodeSymbols alphabet) v) = v.
Proof.
  intros Hv. destruct (constructed_inverts alphabet Hconstructed) as [Hlen [Hf Hb]].
  unfold valid, value, index at 2 4.
  rewrite (Hf (Z.to_nat v)) by lia. rewrite Z2Nat.id by lia. split.
  - now apply of_Z_small_not_xff.
  - rewrite byte.unsigned_of_Z. unfold byte.wrap. apply Z.mod_small. lia.
Qed.

Lemma constructed_Forall_valid (l : list byte) :
  Forall (fun s => In s (encodeSymbols alphabet)) l ->
  Forall (valid (decodeBytes alphabet)) l.
Proof.
  apply Forall_impl. intros s. now apply constructed_valid.
Qed.

(** The symbols of a constructed alphabet decode to the values they
    encode. *)
Lemma constructed_symbols (vs : list Z) :
  Forall (fun v => 0 <= v < 32) vs ->
  Forall (valid (decodeBytes alphabet)) (map (index (encodeSymbols alphabet)) vs)
  /\ map (value (decodeBytes alphabet)) (map (index (encodeSymbols alphabet)) vs)
     = vs.
Proof.
  intros Hvs. induction Hvs as [|v vs Hv Hvs [IHv IHe]]; cbn [map].
  - split; constructor.
  - destruct (constructed_value v Hv) as [Hvalid Hval]. split.
    + now constructor.
    + now rewrite Hval, IHe.
Qed.

(** Distinct values have distinct symbols. *)
Lemma index_injective v1 v2 :
  0 <= v1 < 32 -> 0 <= v2 < 32 ->
  index (encodeSymbols alphabet) v1 = index (encodeSymbols alphabet) v2 ->
  v1 = v2.
Proof.
  intros H1 H2 E.
  destruct (constructed_value v1 H1) as [_ E1].
  destruct (constructed_value v2 H2) as [_ E2].
  rewrite E in E1. congruence.
Qed.

Lemma constructed_bijective : bijective alphabet.
Proof.
  destruct (constructed_inverts alphabet Hconstructed) as [Hlen [Hf Hb]].
  split; [|split].
  - intros i Hi. apply (constructed_value i Hi).
  - exact Hb.
  - change (byte.unsigned xff) with 255. lia.
Qed.

End Constructed.

(** * Decoding what was encoded *)

Lemma feed_app order l1 : forall l2 st,
  feed order st (l1 ++ l2)
  = (fst (feed order st l1) ++ fst (feed order (snd (feed order st l1)) l2),
     snd (feed order (snd (feed order st l1)) l2)).
Proof.
  induction l1 as [|v l1 IH]; intros l2 st; cbn [app feed fst snd].
  - now destruct (feed order st l2).
  - destruct (feed1 order st v) as [out st1]. rewrite IH.
    destruct (feed order st1 l1) as [out1 st2]. cbn [fst snd].
    destruct (feed order st2 l2) as [out2 st3]. cbn [fst snd].
    now rewrite app_assoc.
Qed.

Lemma synced_eq order p x st st' pend pend' :
  synced order p x st pend -> st = st' -> pend = pend' ->
  synced order p x st' pend'.
Proof. now intros H <- <-. Qed.

Lemma low_mask k :
  0 <= k < 32 -> wrap_uint32 (shl_uint32 1 k - 1) = Z.ones k.
Proof.
  intros Hk. unfold shl_uint32, wrap_uint32.
  rewrite Z.shiftl_1_l, Z.ones_equiv.
  assert (0 < 2 ^ k <= 2 ^ 31).
  { split; [apply Z.pow_pos_nonneg; lia | apply Z.pow_le_mono_r; lia]. }
  rewrite (Z.mod_small (2 ^ k)) by lia.
  rewrite Z.mod_small by lia. lia.
Qed.

(** Reduction of the decoder on concrete bit counts. *)
Ltac feed_cbn :=
  cbn [feed feed1 flush emitted carry values fst snd app
       Nat.modulo Nat.divmod Nat.sub
       Z.geb Z.gtb Z.add Z.sub Z.compare Z.opp Z.pos_sub Z.double
       Z.succ_double Z.pred_double Pos.compare Pos.compare_cont Pos.add
       Pos.succ Pos.pred_double Pos.add_carry CompOpp].

Ltac state_bits :=
  rewrite ?low_mask by lia;
  unfold shl_uint32, wrap_uint32;
  bytes_as_bits; bits.

Ltac sync_with C :=
  eexists; split;
  [ eapply synced_eq;
    [ apply C
    | f_equal; state_bits
    | reflexivity ]
  | cbn [app]; repeat f_equal; apply byte_of_Z_eq; state_bits ].

(** One more input byte keeps the two in step, and the decoder writes
    the bytes it completes. *)
Lemma synced_step order p (x y : byte) st pend :
  synced order p x st pend ->
  exists pend',
    synced order (S p mod 5) y
      (snd (feed order st
              (emitted order p (carry order p (byte.unsigned x))
                 (byte.unsigned y))))
      pend'
    /\ fst (feed order st
              (emitted order p (carry order p (byte.unsigned x))
                 (byte.unsigned y)))
         ++ pend'
       = pend ++ [y].
Proof.
  intros H. inversion H; subst; clear H.
  - destruct order; feed_cbn.
    + exists [y]. split; [|reflexivity].
      eapply synced_eq; [apply synced_N1 | f_equal; state_bits | reflexivity].
    + exists [y]. split; [|reflexivity].
      eapply synced_eq; [apply synced_I1 | f_equal; state_bits | reflexivity].
  - feed_cbn. sync_with synced_N2.
  - feed_cbn. sync_with synced_N3.
  - feed_cbn. sync_with synced_N4.
  - feed_cbn. sync_with synced_start.
  - feed_cbn. sync_with synced_I2.
  - feed_cbn. exists [x; y]. split; [|reflexivity].
    eapply synced_eq; [apply (synced_I3 x y) | f_equal; state_bits | reflexivity].
  - feed_cbn. sync_with synced_I4.
  - feed_cbn. sync_with synced_I0.
  - feed_cbn. sync_with synced_I1.
Qed.

(** When the input ends, the pending carry completes the bytes the
    decoder had not written. *)
Lemma synced_final order p (x : byte) st pend :
  synced order p x st pend ->
  fst (feed order st (values order p (byte.unsigned x) []))
    ++ flush order (snd (feed order st (values order p (byte.unsigned x) [])))
  = pend.
Proof.
  intros H. inversion H; subst; clear H.
  1: destruct order; reflexivity.
  all: feed_cbn; repeat f_equal; apply byte_of_Z_eq; state_bits.
Qed.

(** Feeding the decoder the values of an encoding gives back the bytes. *)
Lemma feed_values order input : forall p (x : byte) st pend,
  synced order p x st pend ->
  fst (feed order st (values order p (byte.unsigned x) input))
    ++ flush order (snd (feed order st (values order p (byte.unsigned x) input)))
  = pend ++ input.
Proof.
  induction input as [|c rest IH]; intros p x st pend Hs.
  - rewrite app_nil_r. now apply synced_final.
  - cbn [values]. rewrite feed_app. cbn [fst snd].
    destruct (synced_step order p x c st pend Hs) as (pend' & Hs' & Heq).
    rewrite <- app_assoc, (IH _ c _ pend' Hs'), app_assoc, Heq.
    now rewrite <- app_assoc.
Qed.

Lemma emitted_range order p (x y : byte) :
  Forall (fun v => 0 <= v < 32)
    (emitted order p (carry order p (byte.unsigned x)) (byte.unsigned y)).
Proof.
  assert (H : forall a, 0 <= Z.land a 31 < 32).
  { intros a. rewrite land_31. apply Z.mod_pos_bound. lia. }
  destruct order, p as [|[|[|[|[|p]]]]]; cbn [emitted]; repeat constructor;
    apply H.
Qed.

Lemma values_range order input : forall p (x : byte),
  Forall (fun v => 0 <= v < 32) (values order p (byte.unsigned x) input).
Proof.
  induction input as [|c rest IH]; intros p x; cbn [values].
  - destruct p; repeat constructor; rewrite land_31;
      apply Z.mod_pos_bound; lia.
  - apply Forall_app. split; [apply emitted_range | apply IH].
Qed.

(** The functional round trip. *)
Lemma decoded_encoding a (b : list byte) :
  constructed a -> decoded a (encoding a b) = (b, None).
Proof.
  intros Ha. unfold decoded, encoding.
  pose proof (values_range (encodeOrder a) b 0 x00) as Hr.
  change (byte.unsigned x00) with 0 in Hr.
  destruct (constructed_symbols a Ha _ Hr) as [Hvalid Hval].
  rewrite <- (app_nil_r (map _ _)).
  rewrite decoding_app by exact Hvalid.
  rewrite Hval. cbn [decoding fst snd]. f_equal.
  exact (feed_values (encodeOrder a) b 0 x00 (0, 0) []
           (synced_start (encodeOrder a) x00)).
Qed.

(** * The encodings as numbers *)

Lemma lor_shiftl_add a b k :
  0 <= k -> 0 <= a < 2 ^ k -> Z.lor a (Z.shiftl b k) = a + b * 2 ^ k.
Proof.
  intros Hk Ha. rewrite <- Z.shiftl_mul_pow2 by lia.
  assert (H : Z.land a (Z.shiftl b k) = 0).
  { apply Z.bits_inj'. intros i Hi. rewrite Z.land_spec, Z.bits_0.
    destruct (Z.ltb_spec i k).
    - rewrite Z.shiftl_spec_low by lia. apply andb_false_r.
    - rewrite <- (Z.mod_small a (2 ^ k)) by lia.
      rewrite Z.mod_pow2_bits_high by lia. reflexivity. }
  rewrite <- Z.lxor_lor by exact H. symmetry.
  now apply Z.add_nocarry_lxor.
Qed.

(** The powers of two with a closed exponent, as literals. *)
Ltac is_positive_literal p :=
  lazymatch p with
  | xH => idtac
  | xO ?q => is_positive_literal q
  | xI ?q => is_positive_literal q
  end.

Ltac pow2s :=
  repeat match goal with
         | |- context [2 ^ ?e] =>
             let v := eval vm_compute in (2 ^ e) in
             lazymatch v with
             | Z.pos ?p => is_positive_literal p
             end;
             progress change (2 ^ e) with v
         end.

Lemma values_inversed input : forall (p : nat) (x : byte),
  (p < 5)%nat ->
  values OrderInversed p (byte.unsigned x) input
  = digits32 (Z.to_nat ((pending p + 8 * len input + 4) / 5))
      (Z.shiftr (byte.unsigned x) (8 - pending p)
       + 2 ^ pending p * little_endian input).
Proof.
  induction input as [|c rest IH]; intros p x Hp;
    pose proof (byte.unsigned_range x) as Hx.
  - unfold len. cbn [length little_endian fold_right values].
    destruct p as [|[|[|[|[|p]]]]]; try lia;
      rewrite !Z.mul_0_r, !Z.add_0_r; reflexivity.
  - cbn [values]. rewrite IH by (apply Nat.mod_upper_bound; lia).
    pose proof (byte.unsigned_range c) as Hc.
    unfold len. cbn [length little_endian fold_right].
    fold (little_endian rest).
    generalize (little_endian rest). intros L.
    rewrite Nat2Z.inj_succ.
    generalize (Z.of_nat (length rest)) (Nat2Z.is_nonneg (length rest)).
    intros n Hn.
    destruct p as [|[|[|[|[|p]]]]]; try lia.
    + change (pending 0) with 0. change (pending (1 mod 5)) with 3.
      replace (Z.to_nat ((0 + 8 * Z.succ n + 4) / 5))
        with (1 + Z.to_nat ((3 + 8 * n + 4) / 5))%nat by lia.
      cbn [emitted carry Nat.add digits32 app].
      rewrite !Z.shiftr_div_pow2 by lia. masks. pow2s.
      f_equal; [lia|]. f_equal. lia.
    + change (pending 1) with 3. change (pending (2 mod 5)) with 1.
      replace (Z.to_nat ((3 + 8 * Z.succ n + 4) / 5))
        with (2 + Z.to_nat ((1 + 8 * n + 4) / 5))%nat by lia.
      cbn [emitted carry Nat.add digits32 app].
      rewrite !Z.shiftr_div_pow2 by lia.
      rewrite (lor_shiftl_add _ _ 3) by lia. masks.
      rewrite ?Z.shiftr_div_pow2 by lia.
      pow2s. f_equal; [lia|]. f_equal; [lia|]. f_equal. lia.
    + change (pending 2) with 1. change (pending (3 mod 5)) with 4.
      replace (Z.to_nat ((1 + 8 * Z.succ n + 4) / 5))
        with (1 + Z.to_nat ((4 + 8 * n + 4) / 5))%nat by lia.
      cbn [emitted carry Nat.add digits32 app].
      rewrite !Z.shiftr_div_pow2 by lia.
      rewrite (lor_shiftl_add _ _ 1) by lia. masks.
      pow2s. f_equal; [lia|]. f_equal. lia.
    + change (pending 3) with 4. change (pending (4 mod 5)) with 2.
      replace (Z.to_nat ((4 + 8 * Z.succ n + 4) / 5))
        with (2 + Z.to_nat ((2 + 8 * n + 4) / 5))%nat by lia.
      cbn [emitted carry Nat.add digits32 app].
      rewrite !Z.shiftr_div_pow2 by lia.
      rewrite (lor_shiftl_add _ _ 4) by lia. masks.
      rewrite ?Z.shiftr_div_pow2 by lia.
      pow2s. f_equal; [lia|]. f_equal; [lia|]. f_equal. lia.
    + change (pending 4) with 2. change (pending (5 mod 5)) with 0.
      replace (Z.to_nat ((2 + 8 * Z.succ n + 4) / 5))
        with (2 + Z.to_nat ((0 + 8 * n + 4) / 5))%nat by lia.
      cbn [emitted carry Nat.add digits32 app].
      rewrite !Z.shiftr_div_pow2 by lia.
      rewrite (lor_shiftl_add _ _ 2) by lia. masks.
      rewrite ?Z.shiftr_div_pow2 by lia.
      pow2s. f_equal; [lia|]. f_equal; [lia|]. f_equal. lia.
Qed.

Lemma digits32_app (m k : nat) : forall P,
  digits32 (m + k) P
  = digits32 m P ++ digits32 k (Z.shiftr P (5 * Z.of_nat m)).
Proof.
  induction m as [|m IH]; intros P.
  - cbn [Nat.add digits32 app]. now rewrite Z.shiftr_0_r.
  - cbn [Nat.add digits32 app]. rewrite IH, Z.shiftr_shiftr by lia.
    do 4 f_equal. lia.
Qed.

Lemma digits32_mod (m : nat) : forall P,
  digits32 m P = digits32 m (P mod 2 ^ (5 * Z.of_nat m)).
Proof.
  induction m as [|m IH]; intros P; [reflexivity|].
  cbn [digits32]. rewrite (IH (Z.shiftr P 5)), (IH (Z.shiftr (P mod _) 5)).
  assert (E : 5 * Z.of_nat (S m) = 5 + 5 * Z.of_nat m) by lia.
  assert (H5 : 0 < 2 ^ (5 * Z.of_nat m)) by (apply Z.pow_pos_nonneg; lia).
  rewrite E, Z.pow_add_r by lia. masks. rewrite !Z.shiftr_div_pow2 by lia.
  pow2s. generalize dependent (2 ^ (5 * Z.of_nat m)). intros T IH HT.
  rewrite Z.rem_mul_r by lia.
  pose proof (Z.mod_pos_bound P 32 ltac:(lia)) as Hr.
  set (r := P mod 32) in *. set (M := (P / 32) mod T).
  assert (E1 : (r + 32 * M) mod 32 = r) by lia.
  assert (E2 : (r + 32 * M) / 32 = M) by lia.
  rewrite E1, E2. unfold M. now rewrite Z.mod_mod by lia.
Qed.

Lemma fold_left_big_endian (l : list byte) : forall a,
  fold_left (fun n b => 256 * n + byte.unsigned b) l a
  = a * 2 ^ (8 * len l) + big_endian l.
Proof.
  unfold big_endian, len.
  induction l as [|c l IH]; intros a; cbn [fold_left length].
  - cbn. lia.
  - rewrite (IH (256 * a + byte.unsigned c)), (IH (256 * 0 + byte.unsigned c)).
    rewrite Nat2Z.inj_succ.
    replace (8 * Z.succ (Z.of_nat (length l)))
      with (8 + 8 * Z.of_nat (length l)) by lia.
    rewrite Z.pow_add_r by lia. pow2s. ring.
Qed.

Lemma big_endian_cons (c : byte) (l : list byte) :
  big_endian (c :: l) = byte.unsigned c * 2 ^ (8 * len l) + big_endian l.
Proof.
  unfold big_endian at 1. cbn [fold_left]. rewrite fold_left_big_endian.
  f_equal.
Qed.

Lemma big_endian_range (l : list byte) :
  0 <= big_endian l < 2 ^ (8 * len l).
Proof.
  induction l as [|c l IH].
  - cbn. lia.
  - rewrite big_endian_cons. pose proof (byte.unsigned_range c) as Hc.
    unfold len in *. cbn [length]. rewrite Nat2Z.inj_succ.
    replace (8 * Z.succ (Z.of_nat (length l)))
      with (8 + 8 * Z.of_nat (length l)) by lia.
    rewrite Z.pow_add_r by lia. pow2s. nia.
Qed.

(** The high and the low part of a number of [t + 8 n + d] bits, cut
    above its low [8 n + d] bits. *)
Lemma split_high A N n t d m :
  0 <= N < 2 ^ (8 * n) -> 0 <= n -> 0 <= t -> 0 <= d ->
  5 * m = t + 8 * n + d ->
  Z.shiftr (Z.shiftl (A * 2 ^ (8 * n) + N) d) (5 * m) = Z.shiftr A t.
Proof.
  intros HN Hn Ht Hd E.
  rewrite Z.shiftr_shiftl_r by lia.
  replace (5 * m - d) with (8 * n + t) by lia.
  rewrite <- Z.shiftr_shiftr by lia. f_equal.
  rewrite Z.shiftr_div_pow2 by lia.
  rewrite Z.div_add_l by lia. rewrite (Z.div_small N) by lia. lia.
Qed.

Lemma split_low A N n t d m :
  0 <= N < 2 ^ (8 * n) -> 0 <= n -> 0 <= t -> 0 <= d ->
  5 * m = t + 8 * n + d ->
  Z.shiftl (A * 2 ^ (8 * n) + N) d mod 2 ^ (5 * m)
  = Z.shiftl (A mod 2 ^ t * 2 ^ (8 * n) + N) d.
Proof.
  intros HN Hn Ht Hd E.
  rewrite !Z.shiftl_mul_pow2 by lia.
  replace (5 * m) with (8 * n + t + d) by lia.
  rewrite !Z.pow_add_r by lia.
  assert (0 < 2 ^ (8 * n)) by (apply Z.pow_pos_nonneg; lia).
  assert (0 < 2 ^ t) by (apply Z.pow_pos_nonneg; lia).
  assert (0 < 2 ^ d) by (apply Z.pow_pos_nonneg; lia).
  rewrite Z.mul_mod_distr_r by lia. f_equal.
  rewrite Z.rem_mul_r by lia.
  rewrite Z.div_add_l by lia. rewrite (Z.div_small N) by lia.
  rewrite Z.add_0_r.
  rewrite (Z.add_comm (A * _)), Z.mod_add by lia.
  rewrite Z.mod_small by lia. ring.
Qed.

(** The digits of a number of [t + 8 n] significant bits, padded on the
    right to a multiple of five: the leading [k] digits come from the high
    part alone. *)
Lemma digits32_cut A N n t (k : nat) :
  0 <= N < 2 ^ (8 * n) -> 0 <= n -> 0 <= t ->
  rev (digits32 (Z.to_nat ((t + 8 * n + 4) / 5) + k)
         (Z.shiftl (A * 2 ^ (8 * n) + N)
            (5 * ((t + 8 * n + 4) / 5) - t - 8 * n)))
  = rev (digits32 k (Z.shiftr A t))
      ++ rev (digits32 (Z.to_nat ((t + 8 * n + 4) / 5))
                (Z.shiftl (A mod 2 ^ t * 2 ^ (8 * n) + N)
                   (5 * ((t + 8 * n + 4) / 5) - t - 8 * n))).
Proof.
  intros HN Hn Ht.
  set (m := (t + 8 * n + 4) / 5). set (d := 5 * m - t - 8 * n).
  assert (Hm : 0 <= m) by (subst m; lia).
  assert (Hd : 0 <= d) by (subst d m; lia).
  assert (E : 5 * m = t + 8 * n + d) by (subst d; lia).
  rewrite digits32_app, rev_app_distr, Z2Nat.id by exact Hm.
  rewrite (split_high A N n t d m HN Hn Ht Hd E). f_equal. f_equal.
  rewrite digits32_mod, Z2Nat.id by exact Hm.
  now rewrite (split_low A N n t d m HN Hn Ht Hd E).
Qed.

(** The digits emitted at a position of the normal order that carries
    bits in. *)
Ltac normal_emitted :=
  cbn [emitted carry digits32 rev app]; masks;
  rewrite Z.shiftl_shiftl by lia;
  match goal with
  | |- context [Z.shiftl _ (?i + ?j)] =>
      let v := eval vm_compute in (i + j) in change (i + j) with v
  end;
  rewrite (Z.lor_comm (Z.shiftl _ 8)), (lor_shiftl_add _ _ 8) by lia;
  rewrite !Z.shiftr_div_pow2 by lia; pow2s.

(** One step of [values_normal]: the byte [c] at a position that carries
    [t] bits in and [t'] bits out, [k] digits being emitted. *)
Ltac normal_step x c n N t t' k :=
  transitivity
    (rev (digits32 (Z.to_nat ((t' + 8 * n + 4) / 5) + k)
            (Z.shiftl
               ((byte.unsigned x mod 2 ^ t * 2 ^ 8 + byte.unsigned c)
                  * 2 ^ (8 * n) + N)
               (5 * ((t' + 8 * n + 4) / 5) - t' - 8 * n))));
  [ rewrite digits32_cut by lia; f_equal
  | f_equal; f_equal;
    [ lia
    | f_equal;
      [ replace (8 * (n + 1)) with (8 + 8 * n) by lia;
        rewrite Z.pow_add_r by lia; ring
      | lia ] ] ].

Lemma values_normal input : forall (p : nat) (x : byte),
  (p < 5)%nat ->
  values OrderNormal p (byte.unsigned x) input
  = rev (digits32 (Z.to_nat ((pending p + 8 * len input + 4) / 5))
           (Z.shiftl
              (byte.unsigned x mod 2 ^ pending p * 2 ^ (8 * len input)
               + big_endian input)
              (5 * ((pending p + 8 * len input + 4) / 5)
               - pending p - 8 * len input))).
Proof.
  induction input as [|c rest IH]; intros p x Hp;
    pose proof (byte.unsigned_range x) as Hx.
  - change (len []) with 0. change (big_endian []) with 0.
    destruct p as [|[|[|[|[|p]]]]]; try lia; [reflexivity| | | |];
      cbn [values carry];
      match goal with
      | |- context [pending ?q] =>
          let t := eval vm_compute in (pending q) in
          change (pending q) with t
      end;
      match goal with
      | |- context [Z.to_nat ?e] =>
          let v := eval vm_compute in (Z.to_nat e) in
          change (Z.to_nat e) with v
      end;
      cbn [digits32 rev app]; f_equal; masks;
      rewrite !Z.shiftl_mul_pow2 by lia; pow2s; lia.
  - cbn [values]. rewrite IH by (apply Nat.mod_upper_bound; lia).
    pose proof (byte.unsigned_range c) as Hc.
    rewrite big_endian_cons.
    pose proof (big_endian_range rest) as HN.
    replace (len (c :: rest)) with (len rest + 1)
      by (unfold len; cbn [length]; lia).
    assert (Hn : 0 <= len rest) by (unfold len; lia).
    clear IH. generalize dependent (big_endian rest). intros N HN.
    generalize dependent (len rest). intros n HN Hn.
    destruct p as [|[|[|[|[|p]]]]]; try lia.
    + change (pending 0) with 0. change (pending (1 mod 5)) with 3.
      normal_step x c n N 0 3 1%nat.
      * cbn [emitted carry digits32 rev app]. f_equal. masks.
        rewrite !Z.shiftr_div_pow2 by lia. pow2s. lia.
      * do 5 f_equal. pow2s. lia.
    + change (pending 1) with 3. change (pending (2 mod 5)) with 1.
      normal_step x c n N 3 1 2%nat.
      * normal_emitted. f_equal; [lia | f_equal; lia].
      * do 5 f_equal. pow2s. lia.
    + change (pending 2) with 1. change (pending (3 mod 5)) with 4.
      normal_step x c n N 1 4 1%nat.
      * normal_emitted. f_equal; lia.
      * do 5 f_equal. pow2s. lia.
    + change (pending 3) with 4. change (pending (4 mod 5)) with 2.
      normal_step x c n N 4 2 2%nat.
      * normal_emitted. f_equal; [lia | f_equal; lia].
      * do 5 f_equal. pow2s. lia.
    + change (pending 4) with 2. change (pending (5 mod 5)) with 0.
      normal_step x c n N 2 0 2%nat.
      * normal_emitted. f_equal; [lia | f_equal; lia].
      * do 5 f_equal. pow2s. lia.
Qed.

(** The two orders on the whole input. *)
Lemma values_inversed_number (input : list byte) :
  values OrderInversed 0 0 input
  = digits32 (Z.to_nat ((8 * len input + 4) / 5)) (little_endian input).
Proof.
  change 0 with (byte.unsigned x00) at 1.
  rewrite values_inversed by lia.
  change (pending 0) with 0. change (byte.unsigned x00) with 0.
  rewrite Z.shiftr_0_l, Z.add_0_l, Z.pow_0_r, Z.mul_1_l.
  reflexivity.
Qed.

Lemma values_normal_number (input : list byte) :
  values OrderNormal 0 0 input
  = rev (digits32 (Z.to_nat ((8 * len input + 4) / 5))
           (Z.shiftl (big_endian input)
              (5 * ((8 * len input + 4) / 5) - 8 * len input))).
Proof.
  change 0 with (byte.unsigned x00) at 1.
  rewrite values_normal by lia.
  change (pending 0) with 0. change (byte.unsigned x00) with 0.
  change (0 mod 2 ^ 0) with 0.
  do 2 f_equal. f_equal; lia.
Qed.

(** Under a constructed alphabet, distinct values give distinct
    symbols. *)
Lemma map_index_injective alphabet (vs : list Z) : forall ws,
  constructed alphabet ->
  Forall (fun v => 0 <= v < 32) vs ->
  Forall (fun v => 0 <= v < 32) ws ->
  map (index (encodeSymbols alphabet)) vs
  = map (index (encodeSymbols alphabet)) ws ->
  vs = ws.
Proof.
  induction vs as [|v vs IH]; intros [|w ws] Ha Hvs Hws E;
    cbn [map] in E; try discriminate; [reflexivity|].
  inversion Hvs; inversion Hws; subst. injection E as E1 E2. f_equal.
  - now apply (index_injective alphabet Ha).
  - now apply IH.
Qed.

(** * The properties of the specification *)

Lemma constructed_roundtrip alphabet :
  constructed alphabet -> ok_roundtrip alphabet.
Proof.
  intros Ha b. exists (encoding alphabet b). split.
  - apply EncodeAlphabet_encoding.
  - rewrite DecodeAlphabet_decoded, decoded_encoding by exact Ha.
    reflexivity.
Qed.

(** C1. Round trip: under each of the three predefined alphabets, encoding
    any byte sequence succeeds and decoding the result gives the sequence
    back, with no error. *)
Theorem roundtrip_predefined :
  ok_roundtrip ZBASE32 /\ ok_roundtrip RFC4648 /\ ok_roundtrip BECH32.
Proof.
  split; [|split]; apply constructed_roundtrip; constructor.
Qed.

(** The count [EncodeToSlice] returns, against [EncodedLen]. *)
Lemma encoding_EncodedLen (alphabet : Alphabet) (input : list byte) :
  Z.of_nat (length (encoding alphabet input))
  = EncodedLen (len input) - (if len input mod 5 <? 3 then 1 else 2).
Proof.
  rewrite length_encoding. unfold len. rewrite EncodedLen_nat.
  destruct (Z.ltb_spec (Z.of_nat (length input) mod 5) 3); lia.
Qed.

(** C2, as stated, fails: a one-byte input is not a multiple of 5 long, yet
    the count returned is 2 while [EncodedLen 1] is 3. *)
Lemma EncodeToSlice_count_not_EncodedLen :
  len ["a"%byte] mod 5 <> 0
  /\ EncodedLen (len ["a"%byte]) = 3
  /\ EncodeToSlice ["a"%byte] (make 3) ZBASE32
     = Some (2%nat, ["b"; "d"; "000"]%byte).
Proof. split; [|split]; vm_compute; [discriminate | reflexivity..]. Qed.

(** C2, amended. On an output slice of at least [EncodedLen (len input)]
    bytes, the count returned by [EncodeToSlice] is [EncodedLen (len input)]
    minus one when the input length is 0, 1 or 2 modulo 5, and minus two
    when it is 3 or 4 modulo 5; it never equals [EncodedLen (len input)]. *)
Theorem EncodeToSlice_count (input output : list byte) (alphabet : Alphabet) :
  EncodedLen (len input) <= len output ->
  exists n output',
    EncodeToSlice input output alphabet = Some (n, output')
    /\ Z.of_nat n
       = EncodedLen (len input) - (if len input mod 5 <? 3 then 1 else 2)
    /\ Z.of_nat n <> EncodedLen (len input).
Proof.
  intros Hlen.
  pose proof (encoding_EncodedLen alphabet input) as Hn.
  exists (length (encoding alphabet input)).
  eexists. split; [|split].
  - apply EncodeToSlice_encoding.
    destruct (len input mod 5 <? 3); unfold len in *; lia.
  - exact Hn.
  - destruct (len input mod 5 <? 3); lia.
Qed.

Lemma EncodeToSlice_count_witness :
  EncodedLen (len ["a"%byte]) <= len (make 3)
  /\ exists n output',
       EncodeToSlice ["a"%byte] (make 3) ZBASE32 = Some (n, output')
       /\ Z.of_nat n
          = EncodedLen (len ["a"%byte])
            - (if len ["a"%byte] mod 5 <? 3 then 1 else 2)
       /\ Z.of_nat n <> EncodedLen (len ["a"%byte]).
Proof.
  split.
  - vm_compute. discriminate.
  - apply (EncodeToSlice_count ["a"%byte] (make 3) ZBASE32).
    vm_compute. discriminate.
Defined.

Lemma normal_twin_ZBASE32 :
  NewAlphabet (String.list_byte_of_string "ybndrfg8ejkmcpqxot1uwisza345h769")
    OrderNormal
  = inr (normal_twin ZBASE32).
Proof. vm_compute. reflexivity. Qed.

(** C3, as stated, fails: two zero bytes encode to the same four symbols
    in both orders. *)
Lemma zero_bytes_encode_alike :
  EncodeAlphabet [x00; x00] ZBASE32
  = Some (String.list_byte_of_string "yyyy")
  /\ EncodeAlphabet [x00; x00] (normal_twin ZBASE32)
     = Some (String.list_byte_of_string "yyyy").
Proof. split; vm_compute; reflexivity. Qed.

Lemma values_zeros n : forall p,
  (p < 5)%nat ->
  values OrderInversed p 0 (repeat x00 n) = values OrderNormal p 0 (repeat x00 n).
Proof.
  induction n as [|n IH]; intros p Hp; cbn [repeat values].
  - destruct p as [|[|[|[|[|p]]]]]; try lia; reflexivity.
  - change (byte.unsigned x00) with 0. rewrite IH by lia.
    destruct p as [|[|[|[|[|p]]]]]; try lia; reflexivity.
Qed.

(** C3, amended. Under [ZBASE32] and under the normal-order alphabet with
    the same symbols, every input has encodings of the same length.  The
    two encodings are equal exactly when the base-32 digits of the input
    read as a little-endian number, least significant first, are the
    digits of the input read as a big-endian number padded with zero bits
    to a multiple of five, most significant first.  They differ whenever
    the low five bits of the first byte differ from its high five bits,
    and they are equal for every all-zero input, whatever its length.
    The condition on the first byte is not necessary: the bytes 00 01
    encode differently although the first byte is zero. *)
Theorem orders_diverge_on_first_byte (input : list byte) :
  (exists s s',
     EncodeAlphabet input ZBASE32 = Some s
     /\ EncodeAlphabet input (normal_twin ZBASE32) = Some s'
     /\ length s = length s'
     /\ (s = s' <->
         digits32 (Z.to_nat ((8 * len input + 4) / 5)) (little_endian input)
         = rev (digits32 (Z.to_nat ((8 * len input + 4) / 5))
                  (Z.shiftl (big_endian input)
                     (5 * ((8 * len input + 4) / 5) - 8 * len input))))
     /\ (forall c rest,
           input = c :: rest ->
           Z.land (byte.unsigned c) 31 <> Z.shiftr (byte.unsigned c) 3 ->
           s <> s')
     /\ (forall n, input = repeat x00 n -> s = s'))
  /\ Z.land (byte.unsigned x00) 31 = Z.shiftr (byte.unsigned x00) 3
  /\ EncodeAlphabet [x00; x01] ZBASE32
     <> EncodeAlphabet [x00; x01] (normal_twin ZBASE32).
Proof.
  split; [|split; [reflexivity | intros H; vm_compute in H; discriminate]].
  exists (encoding ZBASE32 input), (encoding (normal_twin ZBASE32) input).
  rewrite !EncodeAlphabet_encoding, !length_encoding.
  split; [reflexivity|]. split; [reflexivity|]. split; [reflexivity|].
  unfold encoding.
  change (encodeSymbols (normal_twin ZBASE32)) with (encodeSymbols ZBASE32).
  change (encodeOrder (normal_twin ZBASE32)) with OrderNormal.
  change (encodeOrder ZBASE32) with OrderInversed.
  split; [|split].
  - rewrite <- values_inversed_number, <- values_normal_number. split.
    + apply (map_index_injective ZBASE32); [constructor | |].
      * exact (values_range OrderInversed input 0 x00).
      * exact (values_range OrderNormal input 0 x00).
    + intros E. now rewrite E.
  - intros c rest -> Hne E. cbn [values emitted carry map app] in E.
    injection E as E _. apply Hne.
    apply index_injective with (alphabet := ZBASE32) in E.
    + rewrite E. bytes_as_bits. bits.
    + constructor.
    + rewrite land_31. apply Z.mod_pos_bound. lia.
    + rewrite land_31. apply Z.mod_pos_bound. lia.
  - intros n ->. now rewrite values_zeros by lia.
Qed.

Lemma orders_diverge_on_first_byte_witness :
  exists s s',
    EncodeAlphabet (String.list_byte_of_string "hello") ZBASE32 = Some s
    /\ EncodeAlphabet (String.list_byte_of_string "hello")
         (normal_twin ZBASE32) = Some s'
    /\ length s = length s' /\ s <> s'.
Proof.
  destruct (proj1 (orders_diverge_on_first_byte
                     (String.list_byte_of_string "hello")))
    as (s & s' & Hs & Hs' & Hlen & _ & Hne & _).
  exists s, s'. split; [exact Hs|]. split; [exact Hs'|].
  split; [exact Hlen|].
  apply (Hne "h"%byte (String.list_byte_of_string "ello")).
  - reflexivity.
  - vm_compute. discriminate.
Defined.

Lemma decoded_invalid (alphabet : Alphabet) (pre post : list byte) (c : byte) :
  Forall (valid (decodeBytes alphabet)) pre ->
  ~ valid (decodeBytes alphabet) c ->
  snd (decoded alphabet (pre ++ c :: post))
  = Some (invalid_byte (length pre) c).
Proof.
  intros Hpre Hc. unfold decoded. rewrite decoding_app by exact Hpre.
  cbn [snd decoding]. apply eqb_xff_invalid in Hc. now rewrite Hc.
Qed.

Lemma decoded_valid (alphabet : Alphabet) (input : list byte) :
  Forall (valid (decodeBytes alphabet)) input ->
  snd (decoded alphabet input) = None.
Proof.
  intros H. unfold decoded.
  now apply decoding_valid; [apply ready_0|].
Qed.

(** C4. Invalid symbol rejection: when the first byte of the input that
    is outside the 32 symbols of the alphabet is [c], at index
    [len pre], decoding fails with the message "invalid byte", that offset
    and that byte; the count returned is 0 and the allocating wrapper
    returns no bytes.  An input made of symbols of the alphabet only
    never fails. *)
Theorem invalid_symbol_rejected (alphabet : Alphabet) (pre post : list byte)
    (c : byte) :
  constructed alphabet ->
  Forall (fun s => In s (encodeSymbols alphabet)) pre ->
  ~ In c (encodeSymbols alphabet) ->
  let e := {| Msg := "invalid byte"; Offset := len pre; Byte := c |} in
  DecodeAlphabet (pre ++ c :: post) alphabet = Some ([], Some e)
  /\ (forall buffer,
        DecodedLen (len (pre ++ c :: post)) <= len buffer ->
        exists buffer',
          DecodeAlphabetToSlice (pre ++ c :: post) buffer alphabet
          = Some ((0%nat, Some e), buffer'))
  /\ (forall input,
        Forall (fun s => In s (encodeSymbols alphabet)) input ->
        exists out, DecodeAlphabet input alphabet = Some (out, None)).
Proof.
  intros Ha Hpre Hc e.
  assert (He : snd (decoded alphabet (pre ++ c :: post)) = Some e).
  { apply decoded_invalid.
    - now apply constructed_Forall_valid.
    - intros Hv. now apply (constructed_valid alphabet Ha c) in Hv. }
  split; [|split].
  - now rewrite DecodeAlphabet_decoded, He.
  - intros buffer Hlen. eexists.
    rewrite DecodeAlphabetToSlice_decoded, He; [reflexivity|].
    pose proof (length_decoding_DecodedLen (encodeOrder alphabet)
                  (decodeBytes alphabet) (pre ++ c :: post)).
    unfold decoded, len in *. lia.
  - intros input Hin. eexists.
    rewrite DecodeAlphabet_decoded, decoded_valid; [reflexivity|].
    now apply constructed_Forall_valid.
Qed.

Lemma invalid_symbol_rejected_witness :
  DecodeAlphabet (String.list_byte_of_string "em3@gs7p") ZBASE32
  = Some ([], Some {| Msg := "invalid byte"; Offset := 3; Byte := "@" |}).
Proof.
  refine (proj1 (invalid_symbol_rejected ZBASE32
                   (String.list_byte_of_string "em3") 
                   (String.list_byte_of_string "gs7p") "@"%byte
                   constructed_ZBASE32 _ _)).
  - repeat constructor; vm_compute; tauto.
  - vm_compute. intuition discriminate.
Defined.

(** C5. Alphabet bijectivity: for every alphabet [NewAlphabet] returns and
    for the three predefined alphabets, decodeBytes[encodeSymbols[i]] = i
    for every i in 0..31 and decodeBytes[x] = 0xff for every byte x that
    is not in encodeSymbols. *)
Theorem alphabets_bijective :
  (forall spec order alphabet,
     NewAlphabet spec order = inr alphabet -> bijective alphabet)
  /\ bijective ZBASE32 /\ bijective RFC4648 /\ bijective BECH32.
Proof.
  split; [|split; [|split]].
  - intros spec order alphabet H.
    now apply constructed_bijective, (constructed_NewAlphabet spec order).
  - apply constructed_bijective. constructor.
  - apply constructed_bijective. constructor.
  - apply constructed_bijective. constructor.
Qed.

Lemma alphabets_bijective_witness :
  exists alphabet,
    NewAlphabet (String.list_byte_of_string "0123456789ABCDEFGHIJKLMNOPQRSTUV")
      OrderNormal = inr alphabet
    /\ bijective alphabet.
Proof.
  eexists. split.
  - vm_compute. reflexivity.
  - apply (proj1 alphabets_bijective
             (String.list_byte_of_string "0123456789ABCDEFGHIJKLMNOPQRSTUV")
             OrderNormal).
    vm_compute. reflexivity.
Defined.

(** C6, as stated, fails: this 32-byte string has a byte outside
    0x20-0x7E, its last one, yet [NewAlphabet] reports the repeated "a",
    which comes first. *)
Lemma duplicate_reported_before_unprintable :
  let spec :=
    String.list_byte_of_string "aacdefghijklmnopqrstuvwxyz23456" ++ [x01] in
  length spec = 32%nat
  /\ In x01 spec /\ ~ printable x01
  /\ NewAlphabet spec OrderNormal = inl (DuplicatedByte "a"%byte).
Proof.
  cbv zeta. split; [reflexivity|]. split; [|split].
  - apply in_or_app. right. now left.
  - unfold printable. change (byte.unsigned x01) with 1. lia.
  - vm_compute. reflexivity.
Qed.

Lemma NewAlphabet_inl (spec : list byte) order e :
  e <> InvalidLength ->
  (NewAlphabet spec order = inl e
   <-> length spec = 32%nat
       /\ exists pre b post,
            spec = pre ++ b :: post /\ clean pre /\ fault pre b e).
Proof.
  intros He. split.
  - intros H.
    destruct (Nat.eq_dec (length spec) 32) as [Hlen | Hlen].
    + split; [exact Hlen|].
      destruct (clean_or_fault spec)
        as [Hc | (pre & b & post & e' & -> & Hc & Hf)].
      * destruct (NewAlphabet_clean spec order Hlen Hc) as (t & Ht & _).
        congruence.
      * rewrite (NewAlphabet_fault pre post b e' order Hlen Hc Hf) in H.
        injection H as <-. now exists pre, b, post.
    + apply (NewAlphabet_length spec order) in Hlen. congruence.
  - intros (Hlen & pre & b & post & -> & Hc & Hf).
    now apply NewAlphabet_fault.
Qed.

(** C6, amended. [NewAlphabet] fails with the invalid-length error exactly
    when the string is not 32 bytes long.  Otherwise it stops at the first
    byte, from the left, that is outside 0x20-0x7E or repeats an earlier
    byte: it fails with the unprintable-byte error for that byte in the
    first case and with the duplicated-byte error for that byte in the
    second; it succeeds exactly when there is no such byte.  "tooshort"
    gives the length error and "aacdefghijklmnopqrstuvwxyz234567" the
    duplicate error. *)
Theorem NewAlphabet_errors :
  (forall spec order,
     (NewAlphabet spec order = inl InvalidLength <-> length spec <> 32%nat)
     /\ (forall b,
           NewAlphabet spec order = inl (UnprintableByte b)
           <-> length spec = 32%nat
               /\ exists pre post,
                    spec = pre ++ b :: post /\ clean pre /\ ~ printable b)
     /\ (forall b,
           NewAlphabet spec order = inl (DuplicatedByte b)
           <-> length spec = 32%nat
               /\ exists pre post,
                    spec = pre ++ b :: post /\ clean pre
                    /\ printable b /\ In b pre)
     /\ ((exists alphabet, NewAlphabet spec order = inr alphabet)
         <-> length spec = 32%nat /\ clean spec))
  /\ NewAlphabet (String.list_byte_of_string "tooshort") OrderNormal
     = inl InvalidLength
  /\ NewAlphabet (String.list_byte_of_string "aacdefghijklmnopqrstuvwxyz234567")
       OrderNormal
     = inl (DuplicatedByte "a"%byte).
Proof.
  split; [|split; vm_compute; reflexivity].
  intros spec order. split; [apply NewAlphabet_length|]. split; [|split].
  - intros b. rewrite NewAlphabet_inl by discriminate. split.
    + intros (Hlen & pre & b' & post & Hs & Hc & Hf).
      split; [exact Hlen|]. inversion Hf; subst. now exists pre, post.
    + intros (Hlen & pre & post & Hs & Hc & Hb).
      split; [exact Hlen|]. exists pre, b, post.
      split; [exact Hs|]. split; [exact Hc|]. now constructor.
  - intros b. rewrite NewAlphabet_inl by discriminate. split.
    + intros (Hlen & pre & b' & post & Hs & Hc & Hf).
      split; [exact Hlen|]. inversion Hf; subst. now exists pre, post.
    + intros (Hlen & pre & post & Hs & Hc & Hb & Hin).
      split; [exact Hlen|]. exists pre, b, post.
      split; [exact Hs|]. split; [exact Hc|]. now constructor.
  - split.
    + intros [alphabet H]. apply NewAlphabet_inr in H. tauto.
    + intros [Hlen Hc].
      destruct (NewAlphabet_clean spec order Hlen Hc) as (t & Ht & _).
      eauto.
Qed.

(** C7. Length bounds: the encoding of [b] has at most
    [EncodedLen (len b)] symbols, and a decoding without error of [s] has
    at most [DecodedLen (len s)] bytes. *)
Theorem length_bounds :
  (forall (b : list byte) (alphabet : Alphabet),
     exists s, EncodeAlphabet b alphabet = Some s
               /\ len s <= EncodedLen (len b))
  /\ (forall (s out : list byte) (alphabet : Alphabet),
        DecodeAlphabet s alphabet = Some (out, None) ->
        len out <= DecodedLen (len s)).
Proof.
  split.
  - intros b alphabet. exists (encoding alphabet b).
    split; [apply EncodeAlphabet_encoding|].
    pose proof (encoding_EncodedLen alphabet b) as H. unfold len in *.
    destruct (_ <? 3); lia.
  - intros s out alphabet H. rewrite DecodeAlphabet_decoded in H.
    pose proof (length_decoding_DecodedLen (encodeOrder alphabet)
                  (decodeBytes alphabet) s) as Hlen.
    fold (decoded alphabet s) in Hlen.
    destruct (snd (decoded alphabet s)); [discriminate|].
    injection H as <-. exact Hlen.
Qed.

Lemma length_bounds_witness :
  len (String.list_byte_of_string "hello")
  <= DecodedLen (len (String.list_byte_of_string "em3ags7p")).
Proof.
  apply (proj2 length_bounds (String.list_byte_of_string "em3ags7p")
           (String.list_byte_of_string "hello") ZBASE32).
  vm_compute. reflexivity.
Defined.

(** C8. Literal vectors and empty input. *)
Theorem literal_vectors :
  EncodeAlphabetString "hello" ZBASE32
  = Some (String.list_byte_of_string "em3ags7p")
  /\ DecodeAlphabetString "em3ags7p" ZBASE32
     = Some (String.list_byte_of_string "hello", None)
  /\ EncodeAlphabetString "a" ZBASE32 = Some (String.list_byte_of_string "bd")
  /\ EncodeAlphabetString "hello" RFC4648
     = Some (String.list_byte_of_string "NBSWY3DP")
  /\ (forall alphabet : Alphabet,
        EncodeAlphabet [] alphabet = Some []
        /\ DecodeAlphabet [] alphabet = Some ([], None)).
Proof.
  repeat (split; [vm_compute; reflexivity|]).
  intros alphabet. split.
  - rewrite EncodeAlphabet_encoding. reflexivity.
  - rewrite DecodeAlphabet_decoded. unfold decoded. cbn [decoding].
    now destruct (encodeOrder alphabet).
Qed.

(** C9. Encoding is total, and under the documented preconditions on the
    lengths of the slices no write of [EncodeToSlice] or of
    [DecodeAlphabetToSlice] is out of range: the calls return. *)
Theorem writes_in_bounds (input buffer : list byte) (alphabet : Alphabet) :
  (exists s, EncodeAlphabet input alphabet = Some s)
  /\ (EncodedLen (len input) <= len buffer ->
      exists n buffer',
        EncodeToSlice input buffer alphabet = Some (n, buffer'))
  /\ (DecodedLen (len input) <= len buffer ->
      exists n e buffer',
        DecodeAlphabetToSlice input buffer alphabet = Some ((n, e), buffer')).
Proof.
  split; [|split].
  - eexists. apply EncodeAlphabet_encoding.
  - intros Hlen. do 2 eexists. apply EncodeToSlice_encoding.
    pose proof (encoding_EncodedLen alphabet input) as H. unfold len in *.
    destruct (_ <? 3); lia.
  - intros Hlen.
    pose proof (length_decoding_DecodedLen (encodeOrder alphabet)
                  (decodeBytes alphabet) input) as H.
    fold (decoded alphabet input) in H.
    rewrite DecodeAlphabetToSlice_decoded by (unfold len in *; lia).
    destruct (snd (decoded alphabet input)); do 3 eexists; reflexivity.
Qed.

Lemma writes_in_bounds_witness :
  (exists n buffer',
     EncodeToSlice (String.list_byte_of_string "hello") (make 9) ZBASE32
     = Some (n, buffer'))
  /\ (exists n e buffer',
        DecodeAlphabetToSlice (String.list_byte_of_string "hello") (make 9)
          ZBASE32
        = Some ((n, e), buffer')).
Proof.
  pose proof (writes_in_bounds (String.list_byte_of_string "hello") (make 9)
                ZBASE32) as [_ [He Hd]].
  split.
  - apply He. vm_compute. discriminate.
  - apply Hd. vm_compute. discriminate.
Defined.




(** * Further properties of the code *)

(** ** The exact room a call needs *)

Lemma overruns_ret {A : Type} (a : A) : overruns (ret a) 0.
Proof. intros o output H. lia. Qed.

Lemma overruns_put (v : byte) : overruns (put v) 1.
Proof.
  intros o output H. unfold put.
  destruct (Nat.ltb_spec o (length output)); [lia | reflexivity].
Qed.

Lemma overruns_put_then {B : Type} (v : byte) (k : Out B) n :
  overruns k n -> overruns (put v ;; k) (S n).
Proof.
  intros Hk o output H. unfold bind, put.
  destruct (Nat.ltb_spec o (length output)); [|reflexivity].
  apply Hk. rewrite List.upd_length. lia.
Qed.

Lemma overruns_ret_then {A B : Type} (a : A) (k : A -> Out B) n :
  overruns (k a) n -> overruns (x <- ret a ;; k x) n.
Proof. intros H o output Ho. exact (H o output Ho). Qed.

Lemma overruns_assoc {A B C : Type} (m : Out A) (k : A -> Out B)
    (f : B -> Out C) n :
  overruns (a <- m ;; (b <- k a ;; f b)) n ->
  overruns (b <- (a <- m ;; k a) ;; f b) n.
Proof.
  intros H o output Ho. rewrite <- (H o output Ho).
  unfold bind. now destruct (m _) as [[a s']|].
Qed.

(** A computation that writes [l], run at any cursor with room. *)
Lemma writes_at {A : Type} (m : Out A) l a o (output : list byte) :
  writes m l a ->
  (o + length l <= length output)%nat ->
  m (o, output)
  = Some (a, ((o + length l)%nat,
              firstn o output ++ l ++ skipn (o + length l) output)).
Proof.
  intros Hm Hlen.
  specialize (Hm (firstn o output) (firstn (length l) (skipn o output))
                (skipn (o + length l) output)).
  assert (Hpre : length (firstn o output) = o) by (rewrite length_firstn; lia).
  rewrite length_app, Hpre in Hm.
  rewrite <- (firstn_skipn o output) at 1.
  rewrite <- (firstn_skipn (length l) (skipn o output)) at 1.
  rewrite skipn_skipn, (Nat.add_comm (length l) o).
  apply Hm. rewrite length_firstn, length_skipn. lia.
Qed.

Lemma overruns_bind {A B : Type} (m : Out A) (k : A -> Out B) l a n :
  writes m l a -> overruns m (length l) -> overruns (k a) n ->
  overruns (bind m k) (length l + n).
Proof.
  intros Hw Hm Hk o output H. unfold bind.
  destruct (Nat.le_gt_cases (o + length l) (length output)) as [Hle | Hgt].
  - rewrite (writes_at m l a o output Hw Hle).
    apply Hk. rewrite !length_app, length_firstn, length_skipn. lia.
  - rewrite Hm by lia. reflexivity.
Qed.

Lemma encode_case_overruns order tbl i c remain :
  overruns (encode_case order tbl i c remain)
    (length (emitted order (i mod 5) remain (byte.unsigned c))).
Proof.
  assert (Hp : (i mod 5 < 5)%nat) by lia.
  destruct order; cbn [encode_case];
    unfold encode_inversed_case, encode_normal_case.
  all: destruct (i mod 5)%nat as [|[|[|[|[|p]]]]]; [ | | | | | lia].
  all: cbn [emitted length].
  all: repeat apply overruns_put_then; apply overruns_ret.
Qed.

Lemma encode_loop_overruns order tbl input : forall i (x : byte),
  overruns
    (remain <- encode_loop (encode_case order tbl) i input
                 (carry order (i mod 5) (byte.unsigned x)) ;;
     encode_final tbl remain)
    (length (values order (i mod 5) (byte.unsigned x) input)).
Proof.
  induction input as [|c rest IH]; intros i x.
  - cbn [encode_loop values]. apply overruns_ret_then. unfold encode_final.
    assert (Hp : (i mod 5 < 5)%nat) by lia.
    destruct (i mod 5)%nat as [|p] eqn:E.
    + rewrite carry_0. cbn. apply overruns_ret.
    + pose proof (carry_range order (S p) (byte.unsigned x)
                    (byte.unsigned_range x) ltac:(lia)) as Hc.
      destruct (Z.geb_spec (carry order (S p) (byte.unsigned x)) 0); [|lia].
      cbn [length]. apply overruns_put.
  - cbn [encode_loop values]. apply overruns_assoc.
    rewrite length_app.
    rewrite <- (length_map (index tbl)
                  (emitted order (i mod 5)
                     (carry order (i mod 5) (byte.unsigned x))
                     (byte.unsigned c))).
    eapply overruns_bind.
    + apply encode_case_writes.
    + rewrite length_map. apply encode_case_overruns.
    + replace (S (i mod 5) mod 5)%nat with (S i mod 5)%nat by lia.
      apply IH.
Qed.

(** [EncodeToSlice] on a slice that cannot hold the encoding panics. *)
Lemma EncodeToSlice_short (input output : list byte) (alphabet : Alphabet) :
  (length output < length (encoding alphabet input))%nat ->
  EncodeToSlice input output alphabet = None.
Proof.
  intros Hlen. unfold EncodeToSlice. cbv zeta.
  pose proof (encode_loop_overruns (encodeOrder alphabet)
                (encodeSymbols alphabet) input 0 x00) as H.
  cbn [Nat.modulo Nat.divmod fst snd Nat.sub] in H.
  rewrite carry_0 in H. change (byte.unsigned x00) with 0 in H.
  unfold encode_final in H. unfold encoding in Hlen.
  rewrite length_map in Hlen.
  specialize (H 0%nat output ltac:(lia)).
  destruct (encodeOrder alphabet); cbn [encode_case] in H; now rewrite H.
Qed.

(** X1. [EncodeToSlice] returns exactly when the output slice has room for
    ceil(8 * len(input) / 5) symbols, whatever the alphabet; on a shorter
    slice it panics on an out-of-range write.  The room it needs is below
    [EncodedLen (len input)]. *)
Theorem EncodeToSlice_returns_iff (input output : list byte)
    (alphabet : Alphabet) :
  ((exists r, EncodeToSlice input output alphabet = Some r)
   <-> (8 * len input + 4) / 5 <= len output)
  /\ (EncodeToSlice input output alphabet = None
      <-> len output < (8 * len input + 4) / 5)
  /\ (8 * len input + 4) / 5 < EncodedLen (len input).
Proof.
  pose proof (length_encoding alphabet input) as Hn.
  pose proof (encoding_EncodedLen alphabet input) as He.
  assert (Hc : Z.of_nat (length (encoding alphabet input))
               = (8 * len input + 4) / 5) by (unfold len; lia).
  destruct (Nat.le_gt_cases (length (encoding alphabet input)) (length output))
    as [Hle | Hgt].
  - rewrite (EncodeToSlice_encoding input output alphabet Hle).
    split; [|split].
    + split; [unfold len in *; lia | eauto].
    + split; [discriminate | unfold len in *; lia].
    + destruct (_ <? 3); lia.
  - rewrite (EncodeToSlice_short input output alphabet Hgt).
    split; [|split].
    + split; [intros [r H]; discriminate | unfold len in *; lia].
    + split; [unfold len in *; lia | reflexivity].
    + destruct (_ <? 3); lia.
Qed.

(** X2. What a returning call of [EncodeToSlice] leaves in the slice: the
    count is the number of symbols [EncodeAlphabet] returns, these symbols
    sit at the start of the slice, and the slice keeps its length and
    every byte past the count. *)
Theorem EncodeToSlice_frame (input output output' : list byte)
    (alphabet : Alphabet) (n : nat) :
  EncodeToSlice input output alphabet = Some (n, output') ->
  EncodeAlphabet input alphabet = Some (firstn n output')
  /\ length output' = length output
  /\ skipn n output' = skipn n output.
Proof.
  intros H.
  destruct (Nat.le_gt_cases (length (encoding alphabet input)) (length output))
    as [Hle | Hgt].
  - rewrite (EncodeToSlice_encoding input output alphabet Hle) in H.
    injection H as <- <-. split; [|split].
    + rewrite EncodeAlphabet_encoding.
      now rewrite firstn_app, Nat.sub_diag, firstn_all, firstn_O, app_nil_r.
    + rewrite length_app, length_skipn. lia.
    + rewrite skipn_app, Nat.sub_diag. rewrite skipn_all2 by lia. reflexivity.
  - rewrite (EncodeToSlice_short input output alphabet Hgt) in H.
    discriminate.
Qed.

Lemma EncodeToSlice_frame_witness :
  EncodeAlphabet (String.list_byte_of_string "hello") ZBASE32
  = Some (firstn 8 (String.list_byte_of_string "em3ags7p" ++ [xff; xff]))
  /\ length (String.list_byte_of_string "em3ags7p" ++ [xff; xff])
     = length (repeat xff 10)
  /\ skipn 8 (String.list_byte_of_string "em3ags7p" ++ [xff; xff])
     = skipn 8 (repeat xff 10).
Proof.
  apply (EncodeToSlice_frame (String.list_byte_of_string "hello")
           (repeat xff 10) _ ZBASE32 8).
  vm_compute. reflexivity.
Defined.

Ltac by_overruns_IH IH :=
  match goal with
  | |- context [decoding ?o ?t ?i ?l (?p, ?a)] =>
      specialize (IH p a);
      destruct (decoding o t i l (p, a)) as [? ?];
      cbn [fst snd app length] in IH |- *;
      repeat first [ apply overruns_assoc
                   | apply overruns_put_then
                   | apply overruns_ret_then ];
      cbn [fst snd]; exact IH
  end.

Lemma decode_from_overruns order dtbl input : forall i processedBits acc,
  overruns (decode_from order dtbl i input processedBits acc)
    (length (fst (decoding order dtbl i input (processedBits, acc)))).
Proof.
  induction input as [|c rest IH]; intros i pb acc.
  - destruct order; cbn [decode_from decode_inversed decode_normal decoding
                          flush fst snd].
    + apply overruns_ret.
    + destruct (pb >? 0); cbn [length].
      * apply overruns_put_then, overruns_ret.
      * apply overruns_ret.
  - specialize (IH (S i)).
    destruct order;
      cbn [decode_from decode_inversed decode_normal decoding stall feed1
             fst snd] in IH |- *.
    + destruct (Byte.eqb _ xff); [apply overruns_ret|].
      destruct (pb + 5 >=? 8); by_overruns_IH IH.
    + destruct (Byte.eqb _ xff), (pb >=? 8); cbn [fst snd length].
      * apply overruns_assoc, overruns_put_then, overruns_ret_then,
          overruns_ret.
      * apply overruns_ret_then, overruns_ret.
      * by_overruns_IH IH.
      * by_overruns_IH IH.
Qed.

(** [DecodeAlphabetToSlice] on a buffer that cannot hold the bytes written
    panics. *)
Lemma DecodeAlphabetToSlice_short (input buffer : list byte)
    (alphabet : Alphabet) :
  (length buffer < length (fst (decoded alphabet input)))%nat ->
  DecodeAlphabetToSlice input buffer alphabet = None.
Proof.
  intros Hlen. unfold DecodeAlphabetToSlice. cbv zeta.
  pose proof (decode_from_overruns (encodeOrder alphabet)
                (decodeBytes alphabet) input 0 0 0 0%nat buffer) as H.
  fold (decoded alphabet input) in H. specialize (H ltac:(lia)).
  destruct (encodeOrder alphabet); cbn [decode_from] in H; now rewrite H.
Qed.

(** The bits in the accumulator and the bytes written, after a run of
    values. *)
Lemma feed_ready order vs : forall pb acc,
  ready order pb ->
  ready order (fst (snd (feed order (pb, acc) vs)))
  /\ 8 * Z.of_nat (length (fst (feed order (pb, acc) vs)))
       + fst (snd (feed order (pb, acc) vs))
     = pb + 5 * Z.of_nat (length vs).
Proof.
  induction vs as [|v vs IH]; intros pb acc Hr; cbn [feed].
  - cbn [fst snd length]. split; [exact Hr | lia].
  - destruct (feed1_ready order pb acc v Hr) as [Hr1 Hlen1].
    destruct (feed1 order (pb, acc) v) as [out [pb1 acc1]].
    cbn [fst snd] in Hr1, Hlen1.
    destruct (IH pb1 acc1 Hr1) as [Hr2 Hlen2].
    destruct (feed order (pb1, acc1) vs) as [out' st2].
    cbn [fst snd length] in *. rewrite length_app. split; [exact Hr2 | lia].
Qed.

Lemma flush_stall order st :
  ready order (fst st) -> exists t, flush order st = stall order st ++ t.
Proof.
  destruct order, st as [pb acc]; cbn [ready flush stall fst snd]; intros H.
  - now exists [].
  - destruct (Z.geb_spec pb 8), (Z.gtb_spec pb 0); try lia.
    + now exists [].
    + eexists. reflexivity.
    + now exists [].
Qed.

(** The bytes written before an invalid symbol: a prefix of the decoding
    of what precedes it, floor(5k/8) bytes for [k] valid symbols. *)
Lemma decoded_before_invalid (alphabet : Alphabet) (pre post : list byte)
    (c : byte) :
  Forall (valid (decodeBytes alphabet)) pre ->
  ~ valid (decodeBytes alphabet) c ->
  fst (decoded alphabet (pre ++ c :: post))
  = firstn (Z.to_nat (5 * len pre / 8)) (fst (decoded alphabet pre))
  /\ Z.of_nat (length (fst (decoded alphabet (pre ++ c :: post))))
     = 5 * len pre / 8.
Proof.
  intros Hpre Hc. unfold decoded.
  pose proof (decoding_app (encodeOrder alphabet) (decodeBytes alphabet)
                pre [] 0 (0, 0) Hpre) as Hd.
  rewrite app_nil_r in Hd. cbn [decoding fst snd] in Hd. rewrite Hd.
  rewrite decoding_app by exact Hpre.
  cbn [fst snd decoding]. apply eqb_xff_invalid in Hc. rewrite Hc.
  cbn [fst].
  destruct (feed_ready (encodeOrder alphabet)
              (map (value (decodeBytes alphabet)) pre) 0 0 (ready_0 _))
    as [Hr Hlen].
  rewrite length_map in Hlen.
  destruct (feed (encodeOrder alphabet) (0, 0)
              (map (value (decodeBytes alphabet)) pre)) as [out st].
  cbn [fst snd] in *.
  destruct (flush_stall (encodeOrder alphabet) st Hr) as [t Ht].
  pose proof (length_stall (encodeOrder alphabet) (fst st) (snd st) Hr) as Hs.
  rewrite <- surjective_pairing in Hs.
  assert (Hn : Z.of_nat (length (out ++ stall (encodeOrder alphabet) st))
               = 5 * len pre / 8).
  { rewrite length_app. unfold len.
    destruct (encodeOrder alphabet), st as [pb acc];
      cbn [ready stall fst snd] in *.
    - cbn [length]. lia.
    - destruct (Z.geb_spec pb 8); cbn [length] in *; lia. }
  split; [|exact Hn].
  rewrite Ht, app_assoc, <- Hn, Nat2Z.id.
  now rewrite firstn_app, Nat.sub_diag, firstn_all, firstn_O, app_nil_r.
Qed.

(** X3. On an input of valid symbols only, [DecodeAlphabetToSlice] writes
    floor(5m/8) bytes in the normal order and floor((5m+3)/8) in the
    inverse order, never more than [DecodedLen]: on a shorter buffer it
    panics; otherwise it returns that count with no error, the bytes
    [DecodeAlphabet] returns sit at the start of the buffer, and the
    buffer keeps its length and every byte past the count. *)
Theorem DecodeAlphabetToSlice_valid (input buffer : list byte)
    (alphabet : Alphabet) :
  Forall (valid (decodeBytes alphabet)) input ->
  let need := match encodeOrder alphabet with
              | OrderNormal => 5 * len input / 8
              | OrderInversed => (5 * len input + 3) / 8
              end in
  need <= DecodedLen (len input)
  /\ (len buffer < need ->
      DecodeAlphabetToSlice input buffer alphabet = None)
  /\ (need <= len buffer ->
      exists buffer',
        DecodeAlphabetToSlice input buffer alphabet
        = Some ((Z.to_nat need, None), buffer')
        /\ DecodeAlphabet input alphabet
           = Some (firstn (Z.to_nat need) buffer', None)
        /\ length buffer' = length buffer
        /\ skipn (Z.to_nat need) buffer' = skipn (Z.to_nat need) buffer).
Proof.
  intros Hv need.
  pose proof (length_decoding (encodeOrder alphabet) (decodeBytes alphabet)
                input 0 0 0 (ready_0 _)) as Hle.
  pose proof (decoding_valid (encodeOrder alphabet) (decodeBytes alphabet)
                input 0 0 0 (ready_0 _) Hv) as [Hnone Hge].
  pose proof (length_decoding_DecodedLen (encodeOrder alphabet)
                (decodeBytes alphabet) input) as Hd.
  fold (decoded alphabet input) in Hle, Hge, Hnone, Hd.
  assert (Hneed : Z.of_nat (length (fst (decoded alphabet input))) = need).
  { subst need. unfold len.
    destruct (encodeOrder alphabet); cbn [slack] in Hle, Hge; lia. }
  split; [lia|]. split.
  - intros Hlt. apply DecodeAlphabetToSlice_short. unfold len in Hlt. lia.
  - intros Hlen. eexists.
    rewrite DecodeAlphabetToSlice_decoded by (unfold len in Hlen; lia).
    rewrite Hnone, DecodeAlphabet_decoded, Hnone, <- Hneed, Nat2Z.id.
    split; [reflexivity|]. split; [|split].
    + now rewrite firstn_app, Nat.sub_diag, firstn_all, firstn_O, app_nil_r.
    + rewrite length_app, length_skipn. unfold len in Hlen. lia.
    + rewrite skipn_app, Nat.sub_diag. rewrite skipn_all2 by lia. reflexivity.
Qed.

Lemma DecodeAlphabetToSlice_valid_witness :
  exists buffer',
    DecodeAlphabetToSlice (String.list_byte_of_string "em3ags7p")
      (repeat xff 7) ZBASE32
    = Some ((5%nat, None), buffer')
    /\ DecodeAlphabet (String.list_byte_of_string "em3ags7p") ZBASE32
       = Some (firstn 5 buffer', None)
    /\ length buffer' = 7%nat
    /\ skipn 5 buffer' = [xff; xff].
Proof.
  refine (proj2 (proj2 (DecodeAlphabetToSlice_valid
                          (String.list_byte_of_string "em3ags7p")
                          (repeat xff 7) ZBASE32 _)) _).
  - repeat constructor; vm_compute; discriminate.
  - vm_compute. discriminate.
Defined.

(** X4. When the first invalid symbol of the input comes after [k] valid
    ones, [DecodeAlphabetToSlice] has already written floor(5k/8) bytes
    when it meets it: on a shorter buffer it panics instead of returning
    the error; otherwise it returns the count 0 and the error, and the
    buffer holds the first floor(5k/8) bytes of the decoding of the valid
    prefix, followed by what it held before. *)
Theorem DecodeAlphabetToSlice_invalid (pre post buffer : list byte)
    (c : byte) (alphabet : Alphabet) :
  Forall (valid (decodeBytes alphabet)) pre ->
  ~ valid (decodeBytes alphabet) c ->
  let need := 5 * len pre / 8 in
  (len buffer < need ->
   DecodeAlphabetToSlice (pre ++ c :: post) buffer alphabet = None)
  /\ (need <= len buffer ->
      exists out,
        DecodeAlphabet pre alphabet = Some (out, None)
        /\ DecodeAlphabetToSlice (pre ++ c :: post) buffer alphabet
           = Some ((0%nat,
                    Some {| Msg := "invalid byte"; Offset := len pre;
                            Byte := c |}),
                   firstn (Z.to_nat need) out
                     ++ skipn (Z.to_nat need) buffer)).
Proof.
  intros Hpre Hc need.
  destruct (decoded_before_invalid alphabet pre post c Hpre Hc) as [Hw Hn].
  fold need in Hw, Hn.
  pose proof (decoded_invalid alphabet pre post c Hpre Hc) as He.
  split.
  - intros Hlt. apply DecodeAlphabetToSlice_short. unfold len in Hlt. lia.
  - intros Hlen. exists (fst (decoded alphabet pre)). split.
    + now rewrite DecodeAlphabet_decoded, decoded_valid.
    + rewrite DecodeAlphabetToSlice_decoded by (unfold len in Hlen; lia).
      assert (Hn' : length (fst (decoded alphabet (pre ++ c :: post)))
                    = Z.to_nat need) by lia.
      rewrite He, Hn', Hw. reflexivity.
Qed.

Lemma DecodeAlphabetToSlice_invalid_witness :
  exists out,
    DecodeAlphabet (String.list_byte_of_string "em3ags7p") ZBASE32
    = Some (out, None)
    /\ DecodeAlphabetToSlice (String.list_byte_of_string "em3ags7p@y")
         (repeat xff 7) ZBASE32
       = Some ((0%nat,
                Some {| Msg := "invalid byte"; Offset := 8; Byte := "@" |}),
               firstn 5 out ++ [xff; xff]).
Proof.
  refine (proj2 (DecodeAlphabetToSlice_invalid
                   (String.list_byte_of_string "em3ags7p")
                   (String.list_byte_of_string "y") (repeat xff 7)
                   "@"%byte ZBASE32 _ _) _).
  - repeat constructor; vm_compute; discriminate.
  - vm_compute. intros H. now apply H.
  - vm_compute. discriminate.
Defined.

(** ** Round trips and what they entail *)

(** X5. Round trip for custom alphabets: under every alphabet
    [NewAlphabet] returns, of either order, encoding any byte sequence and
    decoding the result gives the sequence back with no error. *)
Theorem roundtrip_NewAlphabet (spec : list byte) (order : EncodeOrder)
    (alphabet : Alphabet) (b : list byte) :
  NewAlphabet spec order = inr alphabet ->
  exists s, EncodeAlphabet b alphabet = Some s
            /\ DecodeAlphabet s alphabet = Some (b, None).
Proof.
  intros H.
  apply (constructed_roundtrip alphabet
           (constructed_NewAlphabet spec order alphabet H)).
Qed.

Lemma roundtrip_NewAlphabet_witness :
  exists alphabet,
    NewAlphabet (String.list_byte_of_string "0123456789ABCDEFGHIJKLMNOPQRSTUV")
      OrderNormal = inr alphabet
    /\ exists s,
         EncodeAlphabet (String.list_byte_of_string "custom example") alphabet
         = Some s
         /\ DecodeAlphabet s alphabet
            = Some (String.list_byte_of_string "custom example", None).
Proof.
  eexists. split.
  - vm_compute. reflexivity.
  - apply (roundtrip_NewAlphabet
             (String.list_byte_of_string "0123456789ABCDEFGHIJKLMNOPQRSTUV")
             OrderNormal).
    vm_compute. reflexivity.
Defined.

(** X6. Encoding is injective: under an alphabet a program can build, two
    byte sequences with the same encoding are equal. *)
Theorem EncodeAlphabet_injective (alphabet : Alphabet) (b1 b2 : list byte) :
  constructed alphabet ->
  EncodeAlphabet b1 alphabet = EncodeAlphabet b2 alphabet ->
  b1 = b2.
Proof.
  intros Ha H. rewrite !EncodeAlphabet_encoding in H. injection H as H.
  pose proof (decoded_encoding alphabet b1 Ha) as H1.
  rewrite H, (decoded_encoding alphabet b2 Ha) in H1. congruence.
Qed.

Lemma EncodeAlphabet_injective_witness :
  String.list_byte_of_string "hello" = String.list_byte_of_string "hello".
Proof.
  apply (EncodeAlphabet_injective RFC4648).
  - exact constructed_RFC4648.
  - vm_compute. reflexivity.
Defined.

Lemma printable_test_true (b : byte) :
  (32 <=? byte.unsigned b) && (byte.unsigned b <=? 126) = true -> printable b.
Proof. unfold printable. lia. Qed.

Lemma constructed_printable alphabet :
  constructed alphabet -> Forall printable (encodeSymbols alphabet).
Proof.
  intros [spec order a H | | | ].
  - apply NewAlphabet_inr in H.
    destruct H as (_ & [Hp _] & -> & _). exact Hp.
  - repeat constructor; apply printable_test_true; reflexivity.
  - repeat constructor; apply printable_test_true; reflexivity.
  - repeat constructor; apply printable_test_true; reflexivity.
Qed.

Lemma index_In (t : list byte) (v : Z) :
  0 <= v < Z.of_nat (length t) -> In (index t v) t.
Proof. intros H. unfold index. apply nth_In. lia. Qed.

(** X7. Under an alphabet a program can build, every byte of an encoding
    is one of the 32 symbols of the alphabet, hence a printable ASCII
    byte that the decoder accepts: no padding or other byte is ever
    emitted. *)
Theorem encoding_symbols (alphabet : Alphabet) (b : list byte) :
  constructed alphabet ->
  exists s,
    EncodeAlphabet b alphabet = Some s
    /\ Forall (fun c => In c (encodeSymbols alphabet)
                        /\ printable c
                        /\ index (decodeBytes alphabet) (byte.unsigned c)
                           <> xff) s.
Proof.
  intros Ha. exists (encoding alphabet b).
  split; [apply EncodeAlphabet_encoding|].
  destruct (constructed_lengths alphabet Ha) as [Hlen _].
  pose proof (constructed_printable alphabet Ha) as Hp.
  rewrite Forall_forall in Hp.
  unfold encoding. apply Forall_map.
  pose proof (values_range (encodeOrder alphabet) b 0 x00) as Hr.
  change (byte.unsigned x00) with 0 in Hr.
  eapply Forall_impl; [|exact Hr]. cbv beta. intros v Hv.
  assert (Hin : In (index (encodeSymbols alphabet) v) (encodeSymbols alphabet))
    by (apply index_In; lia).
  split; [exact Hin|]. split; [now apply Hp|].
  now apply (constructed_valid alphabet Ha).
Qed.

Lemma encoding_symbols_witness :
  exists s,
    EncodeAlphabet (String.list_byte_of_string "hello") BECH32 = Some s
    /\ Forall (fun c => In c (encodeSymbols BECH32)
                        /\ printable c
                        /\ index (decodeBytes BECH32) (byte.unsigned c)
                           <> xff) s.
Proof.
  apply (encoding_symbols BECH32 (String.list_byte_of_string "hello")).
  exact constructed_BECH32.
Defined.

Lemma NewAlphabet_loop_initDecodeTable alphabet :
  forall i symbols t duplicates symbols' t',
    NewAlphabet_loop i alphabet symbols t duplicates = inr (symbols', t') ->
    t' = initDecodeTable_loop i alphabet t.
Proof.
  induction alphabet as [|b rest IH]; intros i symbols t d symbols' t' H;
    cbn [NewAlphabet_loop initDecodeTable_loop] in *.
  - congruence.
  - destruct ((byte.unsigned b <? 32) || (byte.unsigned b >? 126));
      [discriminate|].
    destruct (d b); [discriminate|].
    exact (IH _ _ _ _ _ _ H).
Qed.

(** X8. A successful [NewAlphabet] builds the record the predefined
    alphabets are written as: the forward table is the string itself, the
    reverse table is what [initDecodeTable] computes for that string, and
    the order is the one requested.  In particular [NewAlphabet] on the
    three predefined strings returns [ZBASE32], [RFC4648] and [BECH32]. *)
Theorem NewAlphabet_tables :
  (forall (s : String.string) (order : EncodeOrder) (alphabet : Alphabet),
     NewAlphabet (String.list_byte_of_string s) order = inr alphabet ->
     alphabet = {| encodeSymbols := String.list_byte_of_string s;
                   decodeBytes := initDecodeTable s;
                   encodeOrder := order |})
  /\ NewAlphabet (String.list_byte_of_string "ybndrfg8ejkmcpqxot1uwisza345h769")
       OrderInversed = inr ZBASE32
  /\ NewAlphabet (String.list_byte_of_string "ABCDEFGHIJKLMNOPQRSTUVWXYZ234567")
       OrderNormal = inr RFC4648
  /\ NewAlphabet (String.list_byte_of_string "qpzry9x8gf2tvdw0s3jn54khce6mua7l")
       OrderNormal = inr BECH32.
Proof.
  split; [|split; [|split]; vm_compute; reflexivity].
  intros s order alphabet H.
  pose proof (NewAlphabet_inr _ _ _ H) as (Hlen & _ & Hs & Ho & _).
  unfold NewAlphabet in H.
  destruct (negb _); [discriminate|]. cbv zeta in H.
  destruct (NewAlphabet_loop _ _ _ _ _) as [e | [symbols t]] eqn:E;
    [discriminate|].
  apply NewAlphabet_loop_initDecodeTable in E.
  injection H as <-. cbn [encodeSymbols encodeOrder] in Hs, Ho.
  subst. reflexivity.
Qed.

Lemma NewAlphabet_tables_witness :
  exists alphabet,
    NewAlphabet (String.list_byte_of_string "0123456789ABCDEFGHIJKLMNOPQRSTUV")
      OrderNormal = inr alphabet
    /\ alphabet
       = {| encodeSymbols :=
              String.list_byte_of_string "0123456789ABCDEFGHIJKLMNOPQRSTUV";
            decodeBytes := initDecodeTable "0123456789ABCDEFGHIJKLMNOPQRSTUV";
            encodeOrder := OrderNormal |}.
Proof.
  eexists. split.
  - vm_compute. reflexivity.
  - apply (proj1 NewAlphabet_tables). vm_compute. reflexivity.
Defined.

(** X9. Two alphabets of the same order encode alike up to the choice of
    symbols: the encoding under [B] is the encoding under [A] with each
    symbol [c] replaced by [B.encodeSymbols[A.decodeBytes[c]]]. *)
Theorem EncodeAlphabet_transcode (A B : Alphabet) (b : list byte) :
  constructed A ->
  encodeOrder A = encodeOrder B ->
  exists sA sB,
    EncodeAlphabet b A = Some sA
    /\ EncodeAlphabet b B = Some sB
    /\ sB = map (fun c => index (encodeSymbols B)
                            (byte.unsigned
                               (index (decodeBytes A) (byte.unsigned c))))
              sA.
Proof.
  intros HA Ho. exists (encoding A b), (encoding B b).
  rewrite !EncodeAlphabet_encoding. split; [reflexivity|].
  split; [reflexivity|].
  unfold encoding. rewrite <- Ho.
  pose proof (values_range (encodeOrder A) b 0 x00) as Hr.
  change (byte.unsigned x00) with 0 in Hr.
  destruct (constructed_symbols A HA _ Hr) as [_ Hval].
  rewrite <- Hval at 1. now rewrite !map_map.
Qed.

Lemma EncodeAlphabet_transcode_witness :
  exists sA sB,
    EncodeAlphabet (String.list_byte_of_string "hello") RFC4648 = Some sA
    /\ EncodeAlphabet (String.list_byte_of_string "hello") BECH32 = Some sB
    /\ sB = map (fun c => index (encodeSymbols BECH32)
                            (byte.unsigned
                               (index (decodeBytes RFC4648) (byte.unsigned c))))
              sA.
Proof.
  apply (EncodeAlphabet_transcode RFC4648 BECH32).
  - exact constructed_RFC4648.
  - reflexivity.
Defined.

(** ** Groups of five bytes and of eight symbols *)

Lemma values_0_any order (x : Z) (input : list byte) :
  values order 0 x input = values order 0 0 input.
Proof. destruct input, order; reflexivity. Qed.

Lemma values_app order (a b : list byte) : forall p x,
  (p < 5)%nat ->
  ((p + length a) mod 5 = 0)%nat ->
  values order p x (a ++ b) = values order p x a ++ values order 0 0 b.
Proof.
  induction a as [|c a IH]; intros p x Hp Hlen; cbn [app length] in *.
  - replace p with 0%nat by lia. cbn [values app]. apply values_0_any.
  - cbn [values]. rewrite <- app_assoc. f_equal.
    apply IH; lia.
Qed.

(** X10. Groups of five bytes are encoded independently: when the length
    of [a] is a multiple of 5, the encoding of [a ++ b] is the encoding of
    [a] followed by the encoding of [b], under any alphabet of either
    order. *)
Theorem EncodeAlphabet_app (alphabet : Alphabet) (a b : list byte) :
  (length a mod 5 = 0)%nat ->
  exists sa sb,
    EncodeAlphabet a alphabet = Some sa
    /\ EncodeAlphabet b alphabet = Some sb
    /\ EncodeAlphabet (a ++ b) alphabet = Some (sa ++ sb).
Proof.
  intros Hlen. exists (encoding alphabet a), (encoding alphabet b).
  rewrite !EncodeAlphabet_encoding. repeat split.
  unfold encoding. rewrite values_app by (cbn [Nat.add]; lia).
  now rewrite map_app.
Qed.

Lemma EncodeAlphabet_app_witness :
  exists sa sb,
    EncodeAlphabet (String.list_byte_of_string "hello") ZBASE32 = Some sa
    /\ EncodeAlphabet (String.list_byte_of_string " world") ZBASE32 = Some sb
    /\ EncodeAlphabet (String.list_byte_of_string "hello"
                         ++ String.list_byte_of_string " world") ZBASE32
       = Some (sa ++ sb).
Proof.
  apply (EncodeAlphabet_app ZBASE32 (String.list_byte_of_string "hello")).
  reflexivity.
Defined.

Lemma lor_bound a b k :
  0 <= k -> 0 <= a < 2 ^ k -> 0 <= b < 2 ^ k -> 0 <= Z.lor a b < 2 ^ k.
Proof.
  intros Hk Ha Hb.
  assert (H0 : 0 <= Z.lor a b) by (apply Z.lor_nonneg; lia).
  split; [exact H0|].
  destruct (Z.eq_dec (Z.lor a b) 0) as [E | E]; [rewrite E; lia|].
  apply Z.log2_lt_pow2; [lia|].
  rewrite Z.log2_lor by lia.
  assert (Hk' : 0 < k).
  { destruct (Z.eq_dec k 0) as [-> | ]; [|lia].
    assert (a = 0) by lia. assert (b = 0) by lia. subst. now cbn in E. }
  assert (La : Z.log2 a < k).
  { destruct (Z.eq_dec a 0) as [-> | ]; [exact Hk'|].
    apply Z.log2_lt_pow2; lia. }
  assert (Lb : Z.log2 b < k).
  { destruct (Z.eq_dec b 0) as [-> | ]; [exact Hk'|].
    apply Z.log2_lt_pow2; lia. }
  lia.
Qed.

(** Between two symbols the accumulator holds [processedBits] bits. *)
Lemma feed1_bound order pb acc v :
  ready order pb -> 0 <= acc < 2 ^ pb -> 0 <= v < 32 ->
  0 <= snd (snd (feed1 order (pb, acc) v))
    < 2 ^ fst (snd (feed1 order (pb, acc) v)).
Proof.
  intros Hr Ha Hv. destruct order; cbn [ready] in Hr.
  - assert (E : pb = 0 \/ pb = 1 \/ pb = 2 \/ pb = 3 \/ pb = 4 \/ pb = 5
                \/ pb = 6 \/ pb = 7) by lia.
    assert (Hs : 0 <= Z.lor (shl_uint32 acc 5) v < 2 ^ (pb + 5)).
    { apply lor_bound; [lia| |].
      - unfold shl_uint32, wrap_uint32. rewrite Z.shiftl_mul_pow2 by lia.
        rewrite Z.pow_add_r by lia.
        assert (2 ^ pb <= 2 ^ 7) by (apply Z.pow_le_mono_r; lia).
        rewrite Z.mod_small; lia.
      - assert (2 ^ 5 <= 2 ^ (pb + 5)) by (apply Z.pow_le_mono_r; lia). lia. }
    cbn [feed1].
    destruct (Z.geb_spec (pb + 5) 8); cbn [fst snd]; [|exact Hs].
    replace (wrap_uint32 (shl_uint32 1 (pb + 5 - 8) - 1))
      with (Z.ones (pb + 5 - 8)).
    + rewrite Z.land_ones by lia. apply Z.mod_pos_bound.
      apply Z.pow_pos_nonneg; lia.
    + decompose [or] E; subst; try lia; reflexivity.
  - assert (E : pb = 0 \/ pb = 5 \/ pb = 6 \/ pb = 7 \/ pb = 8 \/ pb = 9
                \/ pb = 10 \/ pb = 11 \/ pb = 12) by lia.
    cbn [feed1].
    destruct (Z.geb_spec pb 8); cbn [fst snd].
    + replace (pb - 8 + 5) with (pb - 3) by lia.
      apply lor_bound; [lia| |].
      * unfold shl_uint32, wrap_uint32. rewrite Z.shiftl_mul_pow2 by lia.
        decompose [or] E; subst; try lia; rewrite Z.mod_small; lia.
      * rewrite Z.shiftr_div_pow2 by lia.
        decompose [or] E; subst; try lia;
          (split; [apply Z.div_pos; lia|]);
          (apply Z.lt_le_trans with (m := 2 ^ 8);
             [apply Z.div_lt_upper_bound; lia | lia]).
    + apply lor_bound; [lia| |].
      * unfold shl_uint32, wrap_uint32. rewrite Z.shiftl_mul_pow2 by lia.
        decompose [or] E; subst; try lia; rewrite Z.mod_small; lia.
      * assert (2 ^ pb <= 2 ^ (pb + 5)) by (apply Z.pow_le_mono_r; lia). lia.
Qed.

Lemma feed_bound order vs : forall pb acc,
  ready order pb -> 0 <= acc < 2 ^ pb ->
  Forall (fun v => 0 <= v < 32) vs ->
  ready order (fst (snd (feed order (pb, acc) vs)))
  /\ 0 <= snd (snd (feed order (pb, acc) vs))
       < 2 ^ fst (snd (feed order (pb, acc) vs))
  /\ 8 * Z.of_nat (length (fst (feed order (pb, acc) vs)))
       + fst (snd (feed order (pb, acc) vs))
     = pb + 5 * Z.of_nat (length vs).
Proof.
  induction vs as [|v vs IH]; intros pb acc Hr Ha Hvs.
  - cbn [feed fst snd length]. repeat split; try lia. exact Hr.
  - inversion Hvs as [|? ? Hv Hvs']; subst. cbn [feed].
    pose proof (feed1_ready order pb acc v Hr) as [Hr' Hlen].
    pose proof (feed1_bound order pb acc v Hr Ha Hv) as Ha'.
    destruct (feed1 order (pb, acc) v) as [out [pb' acc']].
    cbn [fst snd] in Hr', Hlen, Ha'.
    specialize (IH pb' acc' Hr' Ha' Hvs').
    destruct (feed order (pb', acc') vs) as [out' [pb'' acc'']].
    cbn [fst snd length] in IH |- *. rewrite length_app.
    repeat split; try apply IH; lia.
Qed.

Lemma constructed_value_range alphabet (c : byte) :
  constructed alphabet ->
  valid (decodeBytes alphabet) c ->
  0 <= value (decodeBytes alphabet) c < 32.
Proof.
  intros Ha Hv. apply (constructed_valid alphabet Ha) in Hv.
  destruct (constructed_lengths alphabet Ha) as [Hlen _].
  apply (In_nth _ _ x00) in Hv. destruct Hv as (j & Hj & <-).
  pose proof (proj2 (constructed_value alphabet Ha (Z.of_nat j) ltac:(lia)))
    as E.
  unfold index in E. rewrite Nat2Z.id in E. rewrite E. lia.
Qed.

(** A state reached after a whole number of bytes is as good as the
    initial one: what is pending is written first. *)
Lemma decoding_fresh order dtbl i b pb acc :
  ready order pb -> 0 <= acc < 2 ^ pb -> pb mod 8 = 0 ->
  decoding order dtbl i b (pb, acc)
  = (flush order (pb, acc) ++ fst (decoding order dtbl i b (0, 0)),
     snd (decoding order dtbl i b (0, 0))).
Proof.
  intros Hr Ha Hm. destruct order; cbn [ready] in Hr.
  - assert (pb = 0) by lia. subst pb. assert (acc = 0) by lia. subst acc.
    cbn [flush app]. now destruct (decoding _ _ _ _ _).
  - assert (E : pb = 0 \/ pb = 8) by lia. destruct E; subst pb.
    + assert (acc = 0) by lia. subst acc.
      cbn [flush fst snd]. cbn [Z.gtb Z.compare app].
      now destruct (decoding _ _ _ _ _).
    + cbn [flush fst snd]. change (8 >? 0) with true. cbv iota.
      destruct b as [|c rest]; cbn [decoding flush stall fst snd].
      * reflexivity.
      * change (8 >=? 8) with true. change (0 >=? 8) with false.
        change (0 >? 0) with false.
        destruct (Byte.eqb _ xff); [reflexivity|].
        cbn [feed1]. change (8 >=? 8) with true. change (0 >=? 8) with false.
        cbv iota.
        replace (Z.shiftr acc 8) with 0
          by (rewrite Z.shiftr_div_pow2 by lia;
              symmetry; apply Z.div_small; lia).
        change (8 - 8 + 5) with (0 + 5). change (8 - 8) with 0.
        destruct (decoding OrderInversed dtbl (S i) rest _) as [out e].
        reflexivity.
Qed.

Lemma decoding_later order dtbl input : forall i j st,
  decoding order dtbl (i + j) input st
  = (fst (decoding order dtbl j input st),
     option_map (later (Z.of_nat i)) (snd (decoding order dtbl j input st))).
Proof.
  induction input as [|c rest IH]; intros i j st; cbn [decoding].
  - reflexivity.
  - destruct (Byte.eqb _ xff).
    + cbn [fst snd option_map]. unfold later, invalid_byte.
      cbn [Msg Offset Byte]. now rewrite Nat2Z.inj_add.
    + destruct (feed1 order st _) as [out st1].
      replace (S (i + j)) with (i + S j)%nat by lia.
      rewrite (IH i (S j) st1).
      now destruct (decoding order dtbl (S j) rest st1) as [out' e].
Qed.

(** X11. Groups of eight symbols are decoded independently: when [a] holds
    valid symbols only and its length is a multiple of 8, decoding
    [a ++ b] gives the bytes of [a] followed by those of [b]; an error in
    [b] is reported with its offset moved by the length of [a]. *)
Theorem DecodeAlphabet_app (alphabet : Alphabet) (a b : list byte) :
  constructed alphabet ->
  Forall (valid (decodeBytes alphabet)) a ->
  (length a mod 8 = 0)%nat ->
  exists oa ob e,
    DecodeAlphabet a alphabet = Some (oa, None)
    /\ DecodeAlphabet b alphabet = Some (ob, e)
    /\ DecodeAlphabet (a ++ b) alphabet
       = Some (match e with None => oa ++ ob | Some _ => [] end,
               option_map (later (len a)) e).
Proof.
  intros Hc Hv Hlen.
  assert (Hvs : Forall (fun v => 0 <= v < 32)
                  (map (value (decodeBytes alphabet)) a)).
  { apply Forall_map. eapply Forall_impl; [|exact Hv].
    intros c. apply (constructed_value_range alphabet c Hc). }
  pose proof (feed_bound (encodeOrder alphabet) _ 0 0
                (ready_0 _) ltac:(cbn; lia) Hvs) as (Hr & Ha & Hn).
  rewrite length_map in Hn.
  rewrite !DecodeAlphabet_decoded.
  pose proof (decoding_app (encodeOrder alphabet) (decodeBytes alphabet)
                a [] 0 (0, 0) Hv) as Ea.
  rewrite app_nil_r in Ea. cbn [decoding fst snd] in Ea.
  pose proof (decoding_app (encodeOrder alphabet) (decodeBytes alphabet)
                a b 0 (0, 0) Hv) as Eab.
  destruct (feed (encodeOrder alphabet) (0, 0)
              (map (value (decodeBytes alphabet)) a)) as [out [pb acc]].
  cbn [fst snd] in *.
  rewrite (decoding_fresh _ _ _ b pb acc Hr Ha ltac:(lia)) in Eab.
  replace (0 + length a)%nat with (length a + 0)%nat in Eab by lia.
  rewrite decoding_later in Eab. cbn [fst snd] in Eab.
  fold (decoded alphabet b) in Eab.
  fold (decoded alphabet a) in Ea. fold (decoded alphabet (a ++ b)) in Eab.
  rewrite Ea, Eab. cbn [fst snd].
  exists (out ++ flush (encodeOrder alphabet) (pb, acc)).
  destruct (decoded alphabet b) as [ob [e|]]; cbn [fst snd option_map].
  - exists [], (Some e). repeat split.
  - exists ob, None. repeat split. now rewrite app_assoc.
Qed.

Lemma DecodeAlphabet_app_witness :
  exists oa ob e,
    DecodeAlphabet (String.list_byte_of_string "em3ags7p") ZBASE32
    = Some (oa, None)
    /\ DecodeAlphabet (String.list_byte_of_string "em!") ZBASE32 = Some (ob, e)
    /\ DecodeAlphabet (String.list_byte_of_string "em3ags7p"
                         ++ String.list_byte_of_string "em!") ZBASE32
       = Some (match e with None => oa ++ ob | Some _ => [] end,
               option_map (later (len (String.list_byte_of_string "em3ags7p")))
                 e).
Proof.
  apply (DecodeAlphabet_app ZBASE32 (String.list_byte_of_string "em3ags7p")).
  - exact constructed_ZBASE32.
  - repeat constructor; vm_compute; discriminate.
  - reflexivity.
Defined.

(** ** The encodings as numbers *)

(** X12. What the inverse order computes: read the input as one number,
    first byte least significant; the symbols are its base-32 digits,
    least significant first, [(8 * len(input) + 4) / 5] of them. *)
Theorem EncodeAlphabet_inversed_number (alphabet : Alphabet)
    (input : list byte) :
  encodeOrder alphabet = OrderInversed ->
  EncodeAlphabet input alphabet
  = Some (map (index (encodeSymbols alphabet))
            (digits32 (Z.to_nat ((8 * len input + 4) / 5))
               (little_endian input))).
Proof.
  intros Ho. rewrite EncodeAlphabet_encoding. unfold encoding. rewrite Ho.
  change 0 with (byte.unsigned x00) at 1.
  rewrite values_inversed by lia.
  change (pending 0) with 0. change (byte.unsigned x00) with 0.
  rewrite Z.shiftr_0_l, Z.add_0_l, Z.pow_0_r, Z.mul_1_l.
  reflexivity.
Qed.

Lemma EncodeAlphabet_inversed_number_witness :
  EncodeAlphabet (String.list_byte_of_string "hello") ZBASE32
  = Some (map (index (encodeSymbols ZBASE32))
            (digits32 8
               (little_endian (String.list_byte_of_string "hello")))).
Proof.
  apply (EncodeAlphabet_inversed_number ZBASE32
           (String.list_byte_of_string "hello")).
  reflexivity.
Defined.

(** X13. What the normal order computes: read the input as one number,
    first byte most significant, and append zero bits up to a multiple of
    five; the symbols are the base-32 digits of the result, most
    significant first, [(8 * len(input) + 4) / 5] of them. *)
Theorem EncodeAlphabet_normal_number (alphabet : Alphabet)
    (input : list byte) :
  encodeOrder alphabet = OrderNormal ->
  EncodeAlphabet input alphabet
  = Some (map (index (encodeSymbols alphabet))
            (rev (digits32 (Z.to_nat ((8 * len input + 4) / 5))
                    (Z.shiftl (big_endian input)
                       (5 * ((8 * len input + 4) / 5) - 8 * len input))))).
Proof.
  intros Ho. rewrite EncodeAlphabet_encoding. unfold encoding. rewrite Ho.
  change 0 with (byte.unsigned x00) at 1.
  rewrite values_normal by lia.
  change (pending 0) with 0. change (byte.unsigned x00) with 0.
  change (0 mod 2 ^ 0) with 0.
  do 4 f_equal. f_equal; lia.
Qed.

Lemma EncodeAlphabet_normal_number_witness :
  EncodeAlphabet (String.list_byte_of_string "hello") RFC4648
  = Some (map (index (encodeSymbols RFC4648))
            (rev (digits32 8
                    (Z.shiftl
                       (big_endian (String.list_byte_of_string "hello"))
                       0)))).
Proof.
  apply (EncodeAlphabet_normal_number RFC4648
           (String.list_byte_of_string "hello")).
  reflexivity.
Defined.

(** ** The decodings as numbers *)

Lemma byte_of_Z_mod z z' : z mod 2 ^ 8 = z' mod 2 ^ 8 -> byte.of_Z z = byte.of_Z z'.
Proof.
  intros H. apply byte_of_Z_eq. rewrite byte.unsigned_of_Z. unfold byte.wrap.
  exact H.
Qed.

Lemma shl_uint32_small v k :
  0 <= v < 32 -> 0 <= k <= 12 -> shl_uint32 v k = v * 2 ^ k.
Proof.
  intros Hv Hk. unfold shl_uint32, wrap_uint32.
  rewrite Z.shiftl_mul_pow2 by lia.
  assert (0 < 2 ^ k) by (apply Z.pow_pos_nonneg; lia).
  assert (2 ^ k <= 2 ^ 12) by (apply Z.pow_le_mono_r; lia).
  apply Z.mod_small. nia.
Qed.

Lemma feed_inversed vs : forall pb acc,
  ready OrderInversed pb -> 0 <= acc < 2 ^ pb ->
  Forall (fun v => 0 <= v < 32) vs ->
  fst (feed OrderInversed (pb, acc) vs)
    ++ flush OrderInversed (snd (feed OrderInversed (pb, acc) vs))
  = le_bytes (Z.to_nat ((pb + 5 * Z.of_nat (length vs) + 3) / 8))
      (acc + 2 ^ pb * number32 vs).
Proof.
  induction vs as [|v vs IH]; intros pb acc Hr Ha Hvs.
  - cbn [feed fst snd flush length number32 fold_right app].
    cbn [ready] in Hr. rewrite !Z.mul_0_r, !Z.add_0_r.
    destruct (Z.gtb_spec pb 0).
    + replace (Z.to_nat ((pb + 3) / 8)) with 1%nat by lia.
      cbn [le_bytes]. f_equal. apply byte_of_Z_mod. masks.
      apply Z.mod_mod. lia.
    + replace (Z.to_nat ((pb + 3) / 8)) with 0%nat by lia. reflexivity.
  - inversion Hvs as [|? ? Hv Hvs']; subst.
    pose proof (feed1_ready OrderInversed pb acc v Hr) as [Hr' _].
    pose proof (feed1_bound OrderInversed pb acc v Hr Ha Hv) as Ha'.
    cbn [feed number32 fold_right length]. fold (number32 vs).
    rewrite Nat2Z.inj_succ.
    cbn [ready] in Hr.
    assert (E : pb = 0 \/ pb = 5 \/ pb = 6 \/ pb = 7 \/ pb = 8 \/ pb = 9
                \/ pb = 10 \/ pb = 11 \/ pb = 12) by lia.
    cbn [feed1] in Hr', Ha' |- *.
    destruct (Z.geb_spec pb 8) as [Hge | Hlt]; cbn [fst snd] in Hr', Ha'.
    + specialize (IH _ _ Hr' Ha' Hvs').
      destruct (feed OrderInversed _ vs) as [out' st2].
      cbn [fst snd] in IH |- *. cbn [app]. rewrite IH.
      replace (Z.to_nat ((pb + 5 * Z.succ (Z.of_nat (length vs)) + 3) / 8))
        with (S (Z.to_nat ((pb - 8 + 5 + 5 * Z.of_nat (length vs) + 3) / 8)))
        by lia.
      cbn [le_bytes]. generalize (number32 vs). intros U.
      decompose [or] E; subst pb; try lia;
        rewrite Z.lor_comm, shl_uint32_small by lia;
        rewrite <- Z.shiftl_mul_pow2 by lia;
        rewrite !Z.shiftr_div_pow2 by lia;
        rewrite lor_shiftl_add by (pow2s; lia); pow2s;
        (f_equal; [apply byte_of_Z_mod; masks; pow2s; lia | f_equal; lia]).
    + specialize (IH _ _ Hr' Ha' Hvs').
      destruct (feed OrderInversed _ vs) as [out' st2].
      cbn [fst snd] in IH |- *. cbn [app]. rewrite IH.
      generalize (number32 vs). intros U.
      decompose [or] E; subst pb; try lia;
        rewrite Z.lor_comm, shl_uint32_small by lia;
        rewrite <- Z.shiftl_mul_pow2 by lia;
        rewrite lor_shiftl_add by (pow2s; lia); pow2s;
        (f_equal; [f_equal; lia | lia]).
Qed.

Lemma constructed_values alphabet (input : list byte) :
  constructed alphabet ->
  Forall (valid (decodeBytes alphabet)) input ->
  Forall (fun v => 0 <= v < 32) (map (value (decodeBytes alphabet)) input).
Proof.
  intros Hc Hv. apply Forall_map. eapply Forall_impl; [|exact Hv].
  intros c. apply (constructed_value_range alphabet c Hc).
Qed.

Lemma decoded_feed alphabet (input : list byte) :
  Forall (valid (decodeBytes alphabet)) input ->
  decoded alphabet input
  = (fst (feed (encodeOrder alphabet) (0, 0)
            (map (value (decodeBytes alphabet)) input))
       ++ flush (encodeOrder alphabet)
            (snd (feed (encodeOrder alphabet) (0, 0)
                    (map (value (decodeBytes alphabet)) input))),
     None).
Proof.
  intros Hv.
  pose proof (decoding_app (encodeOrder alphabet) (decodeBytes alphabet)
                input [] 0 (0, 0) Hv) as E.
  rewrite app_nil_r in E. exact E.
Qed.

(** X14. What the inverse order decodes to: on valid symbols, read the
    symbol values as the base-32 digits of one number, least significant
    first; the result is its [(5 * len(input) + 3) / 8] low bytes, least
    significant first. *)
Theorem DecodeAlphabet_inversed_number (alphabet : Alphabet)
    (input : list byte) :
  constructed alphabet ->
  encodeOrder alphabet = OrderInversed ->
  Forall (valid (decodeBytes alphabet)) input ->
  DecodeAlphabet input alphabet
  = Some (le_bytes (Z.to_nat ((5 * len input + 3) / 8))
            (number32 (map (fun c => byte.unsigned
                                       (index (decodeBytes alphabet)
                                          (byte.unsigned c)))
                         input)),
          None).
Proof.
  intros Hc Ho Hv.
  rewrite DecodeAlphabet_decoded, (decoded_feed alphabet input Hv), Ho.
  cbn [fst snd].
  rewrite feed_inversed;
    [ | cbn; lia | cbn; lia | exact (constructed_values alphabet input Hc Hv)].
  rewrite length_map. unfold len.
  rewrite Z.pow_0_r, Z.mul_1_l, !Z.add_0_l. reflexivity.
Qed.

Lemma DecodeAlphabet_inversed_number_witness :
  DecodeAlphabet (String.list_byte_of_string "em3ags7p") ZBASE32
  = Some (le_bytes 5
            (number32 (map (fun c => byte.unsigned
                                       (index (decodeBytes ZBASE32)
                                          (byte.unsigned c)))
                         (String.list_byte_of_string "em3ags7p"))),
          None).
Proof.
  apply (DecodeAlphabet_inversed_number ZBASE32
           (String.list_byte_of_string "em3ags7p")).
  - exact constructed_ZBASE32.
  - reflexivity.
  - repeat constructor; vm_compute; discriminate.
Defined.

Lemma le_bytes_app (n k : nat) : forall N,
  le_bytes (n + k) N
  = le_bytes n N ++ le_bytes k (Z.shiftr N (8 * Z.of_nat n)).
Proof.
  induction n as [|n IH]; intros N.
  - cbn [Nat.add le_bytes app]. now rewrite Z.shiftr_0_r.
  - cbn [Nat.add le_bytes app]. rewrite IH, Z.shiftr_shiftr by lia.
    do 4 f_equal. lia.
Qed.

Lemma le_bytes_mod (n : nat) : forall N,
  le_bytes n N = le_bytes n (N mod 2 ^ (8 * Z.of_nat n)).
Proof.
  induction n as [|n IH]; intros N; [reflexivity|].
  cbn [le_bytes]. rewrite (IH (Z.shiftr N 8)), (IH (Z.shiftr (N mod _) 8)).
  assert (E : 8 * Z.of_nat (S n) = 8 + 8 * Z.of_nat n) by lia.
  assert (H8 : 0 < 2 ^ (8 * Z.of_nat n)) by (apply Z.pow_pos_nonneg; lia).
  rewrite E, Z.pow_add_r by lia. rewrite !Z.shiftr_div_pow2 by lia.
  pow2s. generalize dependent (2 ^ (8 * Z.of_nat n)). intros T IH HT.
  rewrite Z.rem_mul_r by lia.
  pose proof (Z.mod_pos_bound N 256 ltac:(lia)) as Hr.
  set (r := N mod 256) in *. set (M := (N / 256) mod T).
  assert (E1 : (r + 256 * M) mod 256 = r) by lia.
  assert (E2 : (r + 256 * M) / 256 = M) by lia.
  rewrite E2. f_equal.
  - apply byte_of_Z_mod. pow2s. rewrite E1. reflexivity.
  - unfold M. now rewrite Z.mod_mod by lia.
Qed.

Lemma fold_left_number32_be (vs : list Z) : forall a,
  fold_left (fun n v => 32 * n + v) vs a
  = a * 2 ^ (5 * Z.of_nat (length vs)) + number32_be vs.
Proof.
  unfold number32_be.
  induction vs as [|v vs IH]; intros a; cbn [fold_left length].
  - cbn. lia.
  - rewrite (IH (32 * a + v)), (IH (32 * 0 + v)).
    rewrite Nat2Z.inj_succ.
    replace (5 * Z.succ (Z.of_nat (length vs)))
      with (5 + 5 * Z.of_nat (length vs)) by lia.
    rewrite Z.pow_add_r by lia. pow2s. ring.
Qed.

Lemma number32_be_cons (v : Z) (vs : list Z) :
  number32_be (v :: vs) = v * 2 ^ (5 * Z.of_nat (length vs)) + number32_be vs.
Proof.
  unfold number32_be at 1. cbn [fold_left]. rewrite fold_left_number32_be.
  f_equal.
Qed.

Lemma number32_be_range (vs : list Z) :
  Forall (fun v => 0 <= v < 32) vs ->
  0 <= number32_be vs < 2 ^ (5 * Z.of_nat (length vs)).
Proof.
  induction 1 as [|v vs Hv Hvs IH].
  - cbn. lia.
  - rewrite number32_be_cons. cbn [length]. rewrite Nat2Z.inj_succ.
    replace (5 * Z.succ (Z.of_nat (length vs)))
      with (5 + 5 * Z.of_nat (length vs)) by lia.
    rewrite Z.pow_add_r by lia. pow2s. nia.
Qed.

(** The leading byte of a number of [8 + t + 5 m] bits whose low [s] bits
    are dropped, and the bytes that follow it. *)
Lemma le_bytes_cut A U m t :
  0 <= U < 2 ^ (5 * m) -> 0 <= m -> 0 <= t ->
  rev (le_bytes (Z.to_nat ((t + 5 * m) / 8) + 1)
         (Z.shiftr (A * 2 ^ (5 * m) + U) ((t + 5 * m) mod 8)))
  = byte.of_Z (Z.shiftr A t)
      :: rev (le_bytes (Z.to_nat ((t + 5 * m) / 8))
                (Z.shiftr (A mod 2 ^ t * 2 ^ (5 * m) + U)
                   ((t + 5 * m) mod 8))).
Proof.
  intros HU Hm Ht.
  set (n := (t + 5 * m) / 8). set (s := (t + 5 * m) mod 8).
  assert (Hn : 0 <= n) by (subst n; lia).
  assert (Hs : 0 <= s < 8) by (subst s; lia).
  assert (E : t + 5 * m = 8 * n + s) by (subst n s; lia).
  assert (HS : 0 < 2 ^ (5 * m)) by (apply Z.pow_pos_nonneg; lia).
  assert (HT : 0 < 2 ^ t) by (apply Z.pow_pos_nonneg; lia).
  rewrite le_bytes_app, rev_app_distr, Z2Nat.id by exact Hn.
  cbn [le_bytes rev app]. f_equal.
  - f_equal. rewrite Z.shiftr_shiftr by lia.
    replace (s + 8 * n) with (5 * m + t) by lia.
    rewrite <- Z.shiftr_shiftr by lia. f_equal.
    rewrite Z.shiftr_div_pow2 by lia.
    rewrite Z.div_add_l by lia. rewrite (Z.div_small U) by lia. lia.
  - f_equal. rewrite le_bytes_mod, Z2Nat.id by exact Hn. f_equal.
    rewrite !Z.shiftr_div_pow2 by lia.
    assert (H2s : 0 < 2 ^ s) by (apply Z.pow_pos_nonneg; lia).
    assert (H2n : 0 < 2 ^ (8 * n)) by (apply Z.pow_pos_nonneg; lia).
    assert (EX : (A * 2 ^ (5 * m) + U) mod (2 ^ s * 2 ^ (8 * n))
                 = A mod 2 ^ t * 2 ^ (5 * m) + U).
    { rewrite <- Z.pow_add_r by lia.
      replace (s + 8 * n) with (5 * m + t) by lia.
      rewrite Z.pow_add_r by lia.
      rewrite Z.rem_mul_r by lia.
      rewrite Z.div_add_l by lia. rewrite (Z.div_small U) by lia.
      rewrite Z.add_0_r.
      rewrite (Z.add_comm (A * _)), Z.mod_add by lia.
      rewrite Z.mod_small by lia. ring. }
    rewrite <- EX. rewrite Z.rem_mul_r by lia.
    rewrite (Z.mul_comm (2 ^ s)), Z.div_add by lia.
    rewrite (Z.div_small (_ mod 2 ^ s)) by (apply Z.mod_pos_bound; lia).
    reflexivity.
Qed.

Lemma feed1_normal pb acc v :
  0 <= pb < 8 -> 0 <= acc < 2 ^ pb -> 0 <= v < 32 ->
  feed1 OrderNormal (pb, acc) v
  = if pb + 5 >=? 8
    then ([byte.of_Z (Z.shiftr (32 * acc + v) (pb - 3))],
          (pb - 3, (32 * acc + v) mod 2 ^ (pb - 3)))
    else ([], (pb + 5, 32 * acc + v)).
Proof.
  intros Hp Ha Hv.
  assert (E : pb = 0 \/ pb = 1 \/ pb = 2 \/ pb = 3 \/ pb = 4 \/ pb = 5
              \/ pb = 6 \/ pb = 7) by lia.
  assert (H1 : Z.lor (shl_uint32 acc 5) v = 32 * acc + v).
  { unfold shl_uint32, wrap_uint32.
    assert (2 ^ pb <= 2 ^ 7) by (apply Z.pow_le_mono_r; lia).
    rewrite Z.mod_small by (rewrite Z.shiftl_mul_pow2 by lia; lia).
    rewrite Z.lor_comm, lor_shiftl_add by lia. lia. }
  cbn [feed1]. rewrite H1.
  destruct (Z.geb_spec (pb + 5) 8); [|reflexivity].
  replace (pb + 5 - 8) with (pb - 3) by lia. f_equal.
  - f_equal. apply byte_of_Z_mod. masks. apply Z.mod_mod. lia.
  - f_equal.
    decompose [or] E; subst pb; try lia;
      match goal with
      | |- Z.land _ ?m = _ =>
          let v := eval vm_compute in m in change m with v
      end;
      first [ rewrite Z.land_0_r; symmetry; apply Z.mod_1_r
            | masks; reflexivity ].
Qed.

Lemma feed_normal vs : forall pb acc,
  0 <= pb < 8 -> 0 <= acc < 2 ^ pb ->
  Forall (fun v => 0 <= v < 32) vs ->
  fst (feed OrderNormal (pb, acc) vs)
  = rev (le_bytes (Z.to_nat ((pb + 5 * Z.of_nat (length vs)) / 8))
           (Z.shiftr
              (acc * 2 ^ (5 * Z.of_nat (length vs)) + number32_be vs)
              ((pb + 5 * Z.of_nat (length vs)) mod 8))).
Proof.
  induction vs as [|v vs IH]; intros pb acc Hp Ha Hvs.
  - cbn [feed fst length]. rewrite Z.mul_0_r, Z.add_0_r.
    replace (Z.to_nat (pb / 8)) with 0%nat by lia. reflexivity.
  - inversion Hvs as [|? ? Hv Hvs']; subst.
    pose proof (number32_be_range vs Hvs') as HU.
    pose proof (feed1_bound OrderNormal pb acc v Hp Ha Hv) as Ha'.
    cbn [feed]. rewrite number32_be_cons.
    rewrite feed1_normal in Ha' |- * by assumption.
    cbn [length]. rewrite Nat2Z.inj_succ.
    assert (Hm : 0 <= Z.of_nat (length vs)) by lia.
    generalize dependent (number32_be vs). intros U HU.
    generalize dependent (Z.of_nat (length vs)). intros m Hm IH HU.
    replace (2 ^ (5 * Z.succ m)) with (32 * 2 ^ (5 * m))
      by (replace (5 * Z.succ m) with (5 + 5 * m) by lia;
          now rewrite Z.pow_add_r by lia).
    destruct (Z.geb_spec (pb + 5) 8) as [Hge | Hlt]; cbn [fst snd] in Ha'.
    + specialize (IH (pb - 3) _ ltac:(lia) Ha' Hvs').
      destruct (feed OrderNormal _ vs) as [out' st2].
      cbn [fst] in IH |- *. rewrite IH. cbn [app].
      rewrite <- le_bytes_cut by lia.
      f_equal. f_equal; [lia|]. f_equal; [ring | lia].
    + specialize (IH (pb + 5) _ ltac:(lia) Ha' Hvs').
      destruct (feed OrderNormal _ vs) as [out' st2].
      cbn [fst] in IH |- *. rewrite IH. cbn [app].
      f_equal. f_equal; [f_equal; f_equal; lia|].
      f_equal; [ring | lia].
Qed.

(** X15. What the normal order decodes to: on valid symbols, read the
    symbol values as the base-32 digits of one number, most significant
    first, and drop its [5 * len(input) mod 8] low bits; the result is
    the [5 * len(input) / 8] bytes of what is left, most significant
    first. *)
Theorem DecodeAlphabet_normal_number (alphabet : Alphabet)
    (input : list byte) :
  constructed alphabet ->
  encodeOrder alphabet = OrderNormal ->
  Forall (valid (decodeBytes alphabet)) input ->
  DecodeAlphabet input alphabet
  = Some (rev (le_bytes (Z.to_nat (5 * len input / 8))
                 (Z.shiftr
                    (number32_be
                       (map (fun c => byte.unsigned
                                        (index (decodeBytes alphabet)
                                           (byte.unsigned c)))
                          input))
                    (5 * len input mod 8))),
          None).
Proof.
  intros Hc Ho Hv.
  rewrite DecodeAlphabet_decoded, (decoded_feed alphabet input Hv), Ho.
  cbn [fst snd flush]. rewrite app_nil_r.
  rewrite feed_normal;
    [ | lia | cbn; lia | exact (constructed_values alphabet input Hc Hv)].
  rewrite length_map. unfold len.
  rewrite Z.mul_0_l, !Z.add_0_l. reflexivity.
Qed.

Lemma DecodeAlphabet_normal_number_witness :
  DecodeAlphabet (String.list_byte_of_string "NBSWY3DP") RFC4648
  = Some (rev (le_bytes 5
                 (Z.shiftr
                    (number32_be
                       (map (fun c => byte.unsigned
                                        (index (decodeBytes RFC4648)
                                           (byte.unsigned c)))
                          (String.list_byte_of_string "NBSWY3DP")))
                    0)),
          None).
Proof.
  apply (DecodeAlphabet_normal_number RFC4648
           (String.list_byte_of_string "NBSWY3DP")).
  - exact constructed_RFC4648.
  - reflexivity.
  - repeat constructor; vm_compute; discriminate.
Defined.

(** ** The convenience functions *)

(** X16. The wrappers round trip: [Encode], [Decode], [EncodeString] and
    [DecodeString] work under [ZBASE32], the string variants on the bytes
    of the string; decoding what they encode gives the bytes back with no
    error, and so do [EncodeAlphabetString] and [DecodeAlphabetString]
    under any alphabet a program can build. *)
Theorem wrappers_roundtrip (s : String.string) (alphabet : Alphabet) :
  constructed alphabet ->
  (exists e,
     EncodeString s = Some e
     /\ EncodeAlphabet (String.list_byte_of_string s) ZBASE32 = Some e
     /\ Decode e = Some (String.list_byte_of_string s, None)
     /\ DecodeString (String.string_of_list_byte e)
        = Some (String.list_byte_of_string s, None))
  /\ (exists e,
        EncodeAlphabetString s alphabet = Some e
        /\ DecodeAlphabetString (String.string_of_list_byte e) alphabet
           = Some (String.list_byte_of_string s, None)).
Proof.
  intros Ha. split.
  - destruct (constructed_roundtrip ZBASE32 constructed_ZBASE32
                (String.list_byte_of_string s)) as (e & He & Hd).
    exists e. unfold EncodeString, DecodeString, Encode, Decode.
    rewrite String.list_byte_of_string_of_list_byte. auto.
  - destruct (constructed_roundtrip alphabet Ha
                (String.list_byte_of_string s)) as (e & He & Hd).
    exists e. unfold EncodeAlphabetString, DecodeAlphabetString.
    rewrite String.list_byte_of_string_of_list_byte. auto.
Qed.

Lemma wrappers_roundtrip_witness :
  (exists e,
     EncodeString "test123" = Some e
     /\ EncodeAlphabet (String.list_byte_of_string "test123") ZBASE32 = Some e
     /\ Decode e = Some (String.list_byte_of_string "test123", None)
     /\ DecodeString (String.string_of_list_byte e)
        = Some (String.list_byte_of_string "test123", None))
  /\ (exists e,
        EncodeAlphabetString "test123" BECH32 = Some e
        /\ DecodeAlphabetString (String.string_of_list_byte e) BECH32
           = Some (String.list_byte_of_string "test123", None)).
Proof.
  apply (wrappers_roundtrip "test123" BECH32). exact constructed_BECH32.
Defined.
